(** * CoordinateConverter: range-sensor samples to projection-surface points

    A shallow embedding of [src/main/HokuyoUtils/scip/CoordinateConverter.ts]
    and the properties of its clustering ("bunch") state machine.

    The TypeScript class works on JavaScript [number]s.  The embedding is
    written once over an interface [Number] that lists exactly the arithmetic
    the class uses, and is instantiated twice:

    - [float]: IEEE-754 binary64, the arithmetic the program really runs on;
    - [Q]: exact rationals, the arithmetic the geometric reading of the
      specification has in mind.

    Everything that is proved for an arbitrary [Number] therefore holds for
    the running program; statements that need exact arithmetic say so. *)

From Stdlib Require Import Bool List ZArith QArith Qabs Floats Lia Lqa.
Import ListNotations.
Close Scope Q_scope.

Declare Scope num_scope.
Delimit Scope num_scope with num.

(** ** JavaScript numbers *)

(** The operations of [number] the class relies on.  [lit z] is the integer
    literal [z] (also an array [length] read as a number); [num_abs] is
    [Math.abs].  The one law asked of an instance is that [<] is asymmetric. *)
Class Number (num : Type) : Type := {
  lit : Z -> num;
  num_add : num -> num -> num;
  num_sub : num -> num -> num;
  num_mul : num -> num -> num;
  num_div : num -> num -> num;
  num_neg : num -> num;
  num_abs : num -> num;
  num_ltb : num -> num -> bool;
  num_leb : num -> num -> bool;
  num_ltb_asym : forall a b, num_ltb a b = true -> num_ltb b a = false
}.

Infix "+" := num_add : num_scope.
Infix "-" := num_sub : num_scope.
Infix "*" := num_mul : num_scope.
Infix "/" := num_div : num_scope.
Notation "- x" := (num_neg x) : num_scope.
Infix "<?" := num_ltb : num_scope.
Infix "<=?" := num_leb : num_scope.

(** The parts of the host's [Math] object that are only approximated by an
    engine (ECMAScript fixes [Math.abs] exactly, but not [sin] and [cos]). *)
Record MathObject (num : Type) : Type := {
  Math_PI : num;
  Math_sin : num -> num;
  Math_cos : num -> num
}.
Arguments Math_PI {num} _.
Arguments Math_sin {num} _ _.
Arguments Math_cos {num} _ _.

(** ** The class *)

Inductive SensorPlacement : Type :=
  | top_left | top_right | bottom_left | bottom_right.

(** The [dataPlace] argument of [bunch]: ['first' | 'last' | 'middle']. *)
Inductive DataPlace : Type := First | Last | Middle.

Section Converter.

Context {num : Type} `{Number num}.
Variable Math : MathObject num.

Local Open Scope num_scope.

Definition XY : Type := (num * num)%type.

(** [CoordinateConverterOptions]; an optional field is an [option].  The
    class keeps the caller's object; it is taken here as a value, that is,
    the caller does not mutate it after construction. *)
Record CoordinateConverterOptions : Type := {
  sensorPlacement : SensorPlacement;
  sensorCoordinateFromCenter : XY;
  projectionAreaSize : XY;
  opt_normalize : option bool;
  opt_bunch : option bool;
  opt_bunchEps : option num;
  opt_bunchPrecisionCount : option num
}.

Record RotationMatrix : Type := {
  a11 : num; a12 : num; a21 : num; a22 : num
}.

(** The fields of a [CoordinateConverter] object.  Only [bunchBuffer] and
    [prevCoord] are not [readonly]. *)
Record CoordinateConverter : Type := {
  sensorFov : num;
  sensorAxisRotationMatrix : RotationMatrix;
  bunchBuffer : list XY;
  prevCoord : XY;
  isNormalize : bool;
  isBunch : bool;
  bunchEps : num;
  bunchPrecisionCount : num;
  options : CoordinateConverterOptions
}.

(** [Number.MAX_SAFE_INTEGER], 2^53 - 1. *)
Definition MAX_SAFE_INTEGER : num := lit (2 ^ 53 - 1).

(** The literal [0.05]: the quotient of two exactly represented integers,
    rounded once, which is how a decimal literal is read. *)
Definition lit_0_05 : num := lit 5 / lit 100.

Definition calcSensorAxisRotationMatrix (placement : SensorPlacement)
  : RotationMatrix :=
  let angle :=
    match placement with
    | bottom_left => lit 0
    | bottom_right => Math_PI Math / lit 2
    | top_right => Math_PI Math
    | top_left => Math_PI Math * (lit 3 / lit 2)
    end in
  let s := Math_sin Math angle in
  let c := Math_cos Math angle in
  {| a11 := c; a12 := - s; a21 := s; a22 := c |}.

(** [x ?? d] *)
Definition nullish {A : Type} (x : option A) (d : A) : A :=
  match x with Some v => v | None => d end.

(** The constructor, with the field initialisers of the class body. *)
Definition new_CoordinateConverter (opts : CoordinateConverterOptions)
  : CoordinateConverter :=
  {| sensorFov := lit 90 * (Math_PI Math / lit 180);
     sensorAxisRotationMatrix :=
       calcSensorAxisRotationMatrix (sensorPlacement opts);
     bunchBuffer := [];
     prevCoord := (MAX_SAFE_INTEGER, MAX_SAFE_INTEGER);
     isNormalize := nullish (opt_normalize opts) true;
     isBunch := nullish (opt_bunch opts) true;
     bunchEps := nullish (opt_bunchEps opts) lit_0_05;
     bunchPrecisionCount := nullish (opt_bunchPrecisionCount opts) (lit 3);
     options := opts |}.

(** *** Method calls

    A method runs on the receiver [this] and yields a result together with
    the receiver as the call leaves it. *)
Definition Method (A : Type) : Type :=
  CoordinateConverter -> A * CoordinateConverter.

Definition ret {A : Type} (a : A) : Method A := fun this => (a, this).

Definition bind {A B : Type} (m : Method A) (k : A -> Method B) : Method B :=
  fun this => let (a, this') := m this in k a this'.

(** Reading a field of [this]. *)
Definition field {A : Type} (f : CoordinateConverter -> A) : Method A :=
  fun this => (f this, this).

(** [this.bunchBuffer = b] (also [length = 0] and [push], through [b]). *)
Definition set_bunchBuffer (b : list XY) : Method unit :=
  fun this =>
    (tt, {| sensorFov := sensorFov this;
            sensorAxisRotationMatrix := sensorAxisRotationMatrix this;
            bunchBuffer := b;
            prevCoord := prevCoord this;
            isNormalize := isNormalize this;
            isBunch := isBunch this;
            bunchEps := bunchEps this;
            bunchPrecisionCount := bunchPrecisionCount this;
            options := options this |}).

(** [this.prevCoord = [...coord]] *)
Definition set_prevCoord (coord : XY) : Method unit :=
  fun this =>
    (tt, {| sensorFov := sensorFov this;
            sensorAxisRotationMatrix := sensorAxisRotationMatrix this;
            bunchBuffer := bunchBuffer this;
            prevCoord := coord;
            isNormalize := isNormalize this;
            isBunch := isBunch this;
            bunchEps := bunchEps this;
            bunchPrecisionCount := bunchPrecisionCount this;
            options := options this |}).

Notation "x <- m ;; k" := (bind m (fun x => k))
  (at level 61, m at next level, right associativity).
Notation "m ;;; k" := (bind m (fun _ => k))
  (at level 61, right associativity).

(** [this.bunchBuffer.push(coord)] *)
Definition push (coord : XY) : Method unit :=
  buf <- field bunchBuffer ;;
  set_bunchBuffer (buf ++ [coord]).

(** [convert(distance, dataIndex, datasLength)] *)
Definition convert (distance dataIndex datasLength : num) : Method XY :=
  let meter := distance / lit 1000 in
  fov <- field sensorFov ;;
  let angle := (dataIndex / (datasLength - lit 1)) * fov in
  let localCoord :=
    (meter * Math_cos Math angle, meter * Math_sin Math angle) in
  mat <- field sensorAxisRotationMatrix ;;
  let fixedAxisLocalCoord :=
    (a11 mat * fst localCoord + a12 mat * snd localCoord,
     a21 mat * fst localCoord + a22 mat * snd localCoord) in
  opts <- field options ;;
  let globalCoord :=
    (fst (sensorCoordinateFromCenter opts) + fst fixedAxisLocalCoord,
     snd (sensorCoordinateFromCenter opts) + snd fixedAxisLocalCoord) in
  ret globalCoord.

(** [normalize(coord)] *)
Definition normalize (coord : XY) : Method XY :=
  opts <- field options ;;
  ret (fst coord / (fst (projectionAreaSize opts) / lit 2),
       snd coord / (snd (projectionAreaSize opts) / lit 2)).

(** [inProjectionArea(normCoord)] *)
Definition inProjectionArea (normCoord : XY) : Method bool :=
  ret ((lit (-1) <=? fst normCoord) && (fst normCoord <=? lit 1)
       && (lit (-1) <=? snd normCoord) && (snd normCoord <=? lit 1)).

(** The [length] of an array, read as a number. *)
Definition length_num {A : Type} (l : list A) : num :=
  lit (Z.of_nat (length l)).

(** The loop of [calcBunchAvarage]: [result[0] += coord[0]] and
    [result[1] += coord[1]] for each buffered [coord], in order. *)
Definition accumulate (result : XY) (buf : list XY) : XY :=
  fold_left
    (fun result coord => (fst result + fst coord, snd result + snd coord))
    buf result.

(** [calcBunchAvarage()] *)
Definition calcBunchAvarage : Method (option XY) :=
  count <- field bunchPrecisionCount ;;
  buf <- field bunchBuffer ;;
  let result :=
    if count <=? length_num buf then
      let result := accumulate (lit 0, lit 0) buf in
      Some (fst result / length_num buf, snd result / length_num buf)
    else None in
  set_bunchBuffer [] ;;;
  ret result.

(** [0 < this.bunchBuffer.length] *)
Definition nonempty {A : Type} (l : list A) : bool := (0 <? length l)%nat.

(** [bunch(coord, dataPlace)] *)
Definition bunch (coord : XY) (dataPlace : DataPlace) : Method (option XY) :=
  norm <- normalize coord ;;
  inArea <- inProjectionArea norm ;;
  if negb inArea then
    set_prevCoord coord ;;;
    buf <- field bunchBuffer ;;
    if nonempty buf then calcBunchAvarage else ret None
  else
    match dataPlace with
    | First =>
        set_bunchBuffer [] ;;;
        push coord ;;;
        set_prevCoord coord ;;;
        ret None
    | Middle =>
        buf <- field bunchBuffer ;;
        result <-
          (if nonempty buf then
             prev <- field prevCoord ;;
             eps <- field bunchEps ;;
             let dx := num_abs (fst prev - fst coord) in
             let dy := num_abs (snd prev - snd coord) in
             if (eps <? dx) || (eps <? dy) then calcBunchAvarage
             else ret None
           else ret None) ;;
        push coord ;;;
        set_prevCoord coord ;;;
        ret result
    | Last =>
        buf <- field bunchBuffer ;;
        if nonempty buf then calcBunchAvarage else ret None
    end.

(** [bunch(coord)]: [dataPlace] defaults to ['middle']. *)
Definition bunch_default (coord : XY) : Method (option XY) :=
  bunch coord Middle.

End Converter.

Arguments XY num : clear implicits.
Arguments CoordinateConverterOptions num : clear implicits.
Arguments CoordinateConverter num : clear implicits.
Arguments Method num A : clear implicits.

(** ** The renderer wrapper

    Of the abstract class [Three] (a wrapper around a WebGL renderer, its
    camera and its event listeners) the two members that compute with
    numbers: the [size] getter and [coveredScale].  The canvas they read,
    [this.renderer.domElement], is passed in. *)

Module Three.

Section Three.

Context {num : Type} `{Number num}.

Local Open Scope num_scope.

(** [this.renderer.domElement], as far as the class reads it. *)
Record DomElement : Type := { width : num; height : num }.

Record Size : Type := { size_width : num; size_height : num; aspect : num }.

(** [get size()] *)
Definition size (domElement : DomElement) : Size :=
  {| size_width := width domElement;
     size_height := height domElement;
     aspect := width domElement / height domElement |}.

(** [coveredScale(imageAspect)] *)
Definition coveredScale (domElement : DomElement) (imageAspect : num)
  : num * num :=
  let screenAspect := aspect (size domElement) in
  if screenAspect <? imageAspect then (screenAspect / imageAspect, lit 1)
  else (lit 1, imageAspect / screenAspect).

End Three.

Arguments DomElement num : clear implicits.
Arguments Size num : clear implicits.

End Three.

(** ** The two arithmetics *)

(** *** IEEE-754 binary64 *)

Lemma SFltb_asym (x y : spec_float) :
  SFltb x y = true -> SFltb y x = false.
Proof.
  unfold SFltb.
  destruct x as [sx|sx| |sx mx ex], y as [sy|sy| |sy my ey]; simpl;
    try destruct sx; try destruct sy; simpl; try discriminate; try reflexivity.
  - rewrite (Z.compare_antisym ex ey).
    destruct (ex ?= ey)%Z; simpl; try discriminate; try reflexivity.
    change (PosDef.Pos.compare_cont Eq my mx) with (Pos.compare my mx).
    change (PosDef.Pos.compare_cont Eq mx my) with (Pos.compare mx my).
    rewrite (Pos.compare_antisym mx my).
    destruct (mx ?= my)%positive; simpl; try discriminate; reflexivity.
  - rewrite (Z.compare_antisym ex ey).
    destruct (ex ?= ey)%Z; simpl; try discriminate; try reflexivity.
    change (PosDef.Pos.compare_cont Eq my mx) with (Pos.compare my mx).
    change (PosDef.Pos.compare_cont Eq mx my) with (Pos.compare mx my).
    rewrite (Pos.compare_antisym mx my).
    destruct (mx ?= my)%positive; simpl; try discriminate; reflexivity.
Qed.

Lemma float_ltb_asym (a b : float) :
  PrimFloat.ltb a b = true -> PrimFloat.ltb b a = false.
Proof. rewrite !ltb_spec. apply SFltb_asym. Qed.

(** An integer literal is rounded to the nearest double (exactly
    represented up to 2^53). *)
Definition float_lit (z : Z) : float :=
  SF2Prim (binary_normalize prec emax z 0 false).

#[export] Instance float_Number : Number float := {|
  lit := float_lit;
  num_add := PrimFloat.add;
  num_sub := PrimFloat.sub;
  num_mul := PrimFloat.mul;
  num_div := PrimFloat.div;
  num_neg := PrimFloat.opp;
  num_abs := PrimFloat.abs;
  num_ltb := PrimFloat.ltb;
  num_leb := PrimFloat.leb;
  num_ltb_asym := float_ltb_asym
|}.

(** A positive finite double. *)
Definition positive_finite (h : float) : bool :=
  ((lit 0 <? h) && (h <? infinity))%num.

(** A finite double other than zero, of either sign. *)
Definition nonzero_finite (h : float) : bool := positive_finite (num_abs h).

(** A zero of either sign, or NaN. *)
Definition zero_or_NaN (h : float) : bool := is_zero h || is_nan h.

(** A rotation matrix of finite doubles. *)
Definition finite_matrix (mat : RotationMatrix (num := float)) : bool :=
  is_finite (a11 mat) && is_finite (a12 mat)
  && is_finite (a21 mat) && is_finite (a22 mat).

(** *** Exact rationals

    [Qdiv] by zero is 0, where the program's division yields NaN or an
    infinity: a statement over [Q] carries hypotheses that keep every
    divisor it meets away from zero. *)

Definition Qltb (a b : Q) : bool := negb (Qle_bool b a).

Lemma Qltb_asym (a b : Q) : Qltb a b = true -> Qltb b a = false.
Proof.
  unfold Qltb. intros Hab.
  apply negb_true_iff in Hab. apply negb_false_iff.
  apply Qle_bool_iff.
  destruct (Qlt_le_dec a b) as [Hlt | Hle].
  - apply Qlt_le_weak, Hlt.
  - apply Qle_bool_iff in Hle. congruence.
Qed.

#[export] Instance Q_Number : Number Q := {|
  lit := inject_Z;
  num_add := Qplus;
  num_sub := Qminus;
  num_mul := Qmult;
  num_div := Qdiv;
  num_neg := Qopp;
  num_abs := Qabs;
  num_ltb := Qltb;
  num_leb := Qle_bool;
  num_ltb_asym := Qltb_asym
|}.

(** ** Vocabulary of the specification *)

Section Vocabulary.

Context {num : Type} `{Number num}.

Local Open Scope num_scope.

(** The arithmetic mean of a list of numbers: their sum, taken left to right
    from 0, over their count. *)
Definition sum (l : list num) : num := fold_left num_add l (lit 0).

Definition mean (l : list num) : num := sum l / length_num l.

(** The per-axis mean of a list of points. *)
Definition centroid (pts : list (XY num)) : XY num :=
  (mean (map fst pts), mean (map snd pts)).

(** The precision rule applied to a buffer. *)
Definition flush_rule (count : num) (buf : list (XY num)) : option (XY num) :=
  if count <=? length_num buf then Some (centroid buf) else None.

(** [inProjectionArea(normalize(coord))] as [bunch] evaluates it. *)
Definition in_area (this : CoordinateConverter num) (coord : XY num) : bool :=
  fst (bind (normalize coord) inProjectionArea this).

(** Some axis difference between two points exceeds [eps]. *)
Definition exceeds (eps : num) (p q : XY num) : bool :=
  (eps <? num_abs (fst p - fst q)) || (eps <? num_abs (snd p - snd q)).

(** Both axis differences between two points are below [eps]. *)
Definition below (eps : num) (p q : XY num) : bool :=
  (num_abs (fst p - fst q) <? eps) && (num_abs (snd p - snd q) <? eps).


(** Each point of a list is within [eps] of the one before it, the first
    of them of [q]. *)
Fixpoint chain_below (eps : num) (q : XY num) (pts : list (XY num)) : bool :=
  match pts with
  | [] => true
  | p :: rest => below eps q p && chain_below eps p rest
  end.

(** The object with one of its two mutable fields replaced. *)
Definition with_bunchBuffer (b : list (XY num)) (this : CoordinateConverter num)
  : CoordinateConverter num := snd (set_bunchBuffer b this).

Definition with_prevCoord (coord : XY num) (this : CoordinateConverter num)
  : CoordinateConverter num := snd (set_prevCoord coord this).

(** The [readonly] fields, which no method assigns. *)
Definition same_readonly (this this' : CoordinateConverter num) : Prop :=
  sensorFov this' = sensorFov this
  /\ sensorAxisRotationMatrix this' = sensorAxisRotationMatrix this
  /\ isNormalize this' = isNormalize this
  /\ isBunch this' = isBunch this
  /\ bunchEps this' = bunchEps this
  /\ bunchPrecisionCount this' = bunchPrecisionCount this
  /\ options this' = options this.

(** Two objects that [bunch] cannot tell apart: the fields it reads agree,
    the last-processed point only where the buffer is not empty. *)
Definition same_cluster (this this' : CoordinateConverter num) : Prop :=
  options this' = options this
  /\ bunchEps this' = bunchEps this
  /\ bunchPrecisionCount this' = bunchPrecisionCount this
  /\ bunchBuffer this' = bunchBuffer this
  /\ (bunchBuffer this = [] \/ prevCoord this' = prevCoord this).

(** A sequence of [bunch] calls on one object, with the results in order. *)
Fixpoint run (calls : list (XY num * DataPlace))
  : Method num (list (option (XY num))) :=
  match calls with
  | [] => ret []
  | (coord, dataPlace) :: rest =>
      bind (bunch coord dataPlace) (fun r =>
      bind (run rest) (fun rs => ret (r :: rs)))
  end.


(** *** The statements under test, as the specification words them *)


(** The last-processed point is the argument after every call. *)
Definition bunch_records_its_argument
  (this : CoordinateConverter num) (coord : XY num) (dataPlace : DataPlace)
  : Prop :=
  prevCoord (snd (bunch coord dataPlace this)) = coord.

(** The containment test agrees with the half-extents of the area. *)
Definition in_area_iff_within_half_extents
  (this : CoordinateConverter num) (p : XY num) : Prop :=
  let size := projectionAreaSize (options this) in
  (lit 0 <? fst size) = true -> (lit 0 <? snd size) = true ->
  (in_area this p = true <->
   (num_abs (fst p) <=? fst size / lit 2) = true
   /\ (num_abs (snd p) <=? snd size / lit 2) = true).

(** Every centroid returned along a run from a fresh object lies in the
    projection area. *)
Definition centroids_lie_in_area
  (Math : MathObject num) (opts : CoordinateConverterOptions num)
  (calls : list (XY num * DataPlace)) : Prop :=
  let size := projectionAreaSize opts in
  let this := new_CoordinateConverter Math opts in
  (lit 0 <? fst size) = true -> (lit 0 <? snd size) = true ->
  forall c, In (Some c) (fst (run calls this)) -> in_area this c = true.

(** The last-processed point as the data model of the specification has it:
    an optional point.  A field of TypeScript type [XY] always holds a pair
    of numbers, so the reading is always [Some]. *)
Definition lastProcessed (this : CoordinateConverter num) : option (XY num) :=
  Some (prevCoord this).

(** A fresh object holds an explicit "none" as its last-processed point, and
    no numeric constant stands in for it. *)
Definition fresh_lastProcessed_is_none
  (Math : MathObject num) (opts : CoordinateConverterOptions num) : Prop :=
  let this := new_CoordinateConverter Math opts in
  lastProcessed this = None
  /\ prevCoord this <> (MAX_SAFE_INTEGER, MAX_SAFE_INTEGER).

(** *** Further vocabulary *)

(** No two neighbouring points of a list are more than [eps] apart on an
    axis. *)
Fixpoint no_gap (eps : num) (pts : list (XY num)) : bool :=
  match pts with
  | [] => true
  | p :: rest =>
      match rest with
      | [] => true
      | q :: _ => negb (exceeds eps p q) && no_gap eps rest
      end
  end.

(** A call that ends a cluster: a point outside the area, or the last point
    of a sweep. *)
Definition closes (this : CoordinateConverter num) (coord : XY num)
  (dataPlace : DataPlace) : bool :=
  negb (in_area this coord)
  || match dataPlace with Last => true | _ => false end.

(** A whole sweep: its first point, the points in the middle, its last
    point. *)
Definition sweep (p1 : XY num) (mids : list (XY num)) (pl : XY num)
  : list (XY num * DataPlace) :=
  (p1, First) :: map (fun p => (p, Middle)) mids ++ [(pl, Last)].

(** A sweep with a marked point [q] in its middle. *)
Definition sweep_with_gap (p1 : XY num) (pts1 : list (XY num)) (q : XY num)
  (pts2 : list (XY num)) (pl : XY num) : list (XY num * DataPlace) :=
  (p1, First) :: map (fun p => (p, Middle)) pts1
    ++ (q, Middle) :: map (fun p => (p, Middle)) pts2 ++ [(pl, Last)].

(** Two objects with the same area size, thresholds and cluster state,
    whatever their placement, offset and rotation. *)
Definition same_clustering (this this' : CoordinateConverter num) : Prop :=
  projectionAreaSize (options this') = projectionAreaSize (options this)
  /\ bunchEps this' = bunchEps this
  /\ bunchPrecisionCount this' = bunchPrecisionCount this
  /\ bunchBuffer this' = bunchBuffer this
  /\ (bunchBuffer this = [] \/ prevCoord this' = prevCoord this).

(** The options with other [normalize] and [bunch] entries. *)
Definition with_flags (normalize bunch : option bool)
  (opts : CoordinateConverterOptions num) : CoordinateConverterOptions num :=
  {| sensorPlacement := sensorPlacement opts;
     sensorCoordinateFromCenter := sensorCoordinateFromCenter opts;
     projectionAreaSize := projectionAreaSize opts;
     opt_normalize := normalize;
     opt_bunch := bunch;
     opt_bunchEps := opt_bunchEps opts;
     opt_bunchPrecisionCount := opt_bunchPrecisionCount opts |}.

End Vocabulary.

(** ** Concrete objects *)

(** A [Math] object for concrete runs.  For [sin] and [cos] the small-angle
    forms are taken: they meet ECMAScript where it fixes a value
    ([sin 0 = 0], [cos 0 = 1]), and the runs below use placement
    [bottom_left], whose angle is 0.  Neither [bunch] nor [normalize] nor
    [inProjectionArea] consults them: by [run_any_Math] below, no result of
    [bunch] depends on the choice made here. *)
Definition Math_small_angle {num : Type} `{Number num} (pi : num)
  : MathObject num :=
  {| Math_PI := pi;
     Math_sin := fun x => x;
     Math_cos := fun x => (lit 1 - x * x / lit 2)%num |}.

(** On doubles, [Math.PI] is the double nearest to pi. *)
Definition Math64 : MathObject float :=
  Math_small_angle 0x1.921fb54442d18p+1%float.

(** On rationals, the same value. *)
Definition MathQ : MathObject Q :=
  Math_small_angle (884279719003555 # 281474976710656)%Q.

(** [{ sensorPlacement: 'bottom-left', sensorCoordinateFromCenter: [0, 0],
       projectionAreaSize: size }], with an optional [bunchPrecisionCount]. *)
Definition options_with (size : XY float) (count : option float)
  : CoordinateConverterOptions float :=
  {| sensorPlacement := bottom_left;
     sensorCoordinateFromCenter := (0%float, 0%float);
     projectionAreaSize := size;
     opt_normalize := None;
     opt_bunch := None;
     opt_bunchEps := None;
     opt_bunchPrecisionCount := count |}.

(** A fresh converter over a 2 m by 2 m area, all defaults. *)
Definition fresh_2x2 : CoordinateConverter float :=
  new_CoordinateConverter Math64
    (options_with (2%float, 2%float) None).


(** 0.1 and 0.2 as doubles. *)
Definition d0_1 : float := 0x1.999999999999ap-4%float.
Definition d0_2 : float := 0x1.999999999999ap-3%float.

(** [Number.MIN_VALUE], the smallest positive double. *)
Definition MIN_VALUE : float := 0x1p-1074%float.

(** A fresh converter over an area 0.2 m wide and high, all defaults. *)
Definition fresh_02 : CoordinateConverter float :=
  new_CoordinateConverter Math64 (options_with (d0_2, d0_2) None).

(** A fresh converter over an area [Number.MIN_VALUE] wide. *)
Definition fresh_min : CoordinateConverter float :=
  new_CoordinateConverter Math64 (options_with (MIN_VALUE, 2%float) None).

(** A fresh converter over an area of infinite width. *)
Definition fresh_inf : CoordinateConverter float :=
  new_CoordinateConverter Math64 (options_with (infinity, 2%float) None).

(** Three samples on the right edge of the 0.2 m area, then the end of the
    sweep. *)
Definition edge_sweep : list (XY float * DataPlace) :=
  [((d0_1, 0%float), First); ((d0_1, 0%float), Middle);
   ((d0_1, 0%float), Middle); ((0%float, 0%float), Last)].

(** The 2 m by 2 m converter after three samples at the origin. *)
Definition three_at_origin : CoordinateConverter float :=
  snd (run [((0, 0), First); ((0, 0), Middle); ((0, 0), Middle)]%float
         fresh_2x2).

(** The same setting over the rationals: a 2 by 2 area, and three samples
    on its right edge. *)
Definition options_Q : CoordinateConverterOptions Q :=
  {| sensorPlacement := bottom_left;
     sensorCoordinateFromCenter := (0 # 1, 0 # 1)%Q;
     projectionAreaSize := (2 # 1, 2 # 1)%Q;
     opt_normalize := None;
     opt_bunch := None;
     opt_bunchEps := None;
     opt_bunchPrecisionCount := None |}.

Definition fresh_Q : CoordinateConverter Q :=
  new_CoordinateConverter MathQ options_Q.

Definition edge_sweep_Q : list (XY Q * DataPlace) :=
  [((1 # 1, 0 # 1)%Q, First); ((1 # 1, 0 # 1)%Q, Middle);
   ((1 # 1, 0 # 1)%Q, Middle); ((0 # 1, 0 # 1)%Q, Last)].

(** A sensor mounted top-right, one metre right of and two metres above
    the centre of the 0.2 m area, with [normalize: false]. *)
Definition options_top_right : CoordinateConverterOptions float :=
  {| sensorPlacement := top_right;
     sensorCoordinateFromCenter := (1%float, 2%float);
     projectionAreaSize := (d0_2, d0_2);
     opt_normalize := Some false;
     opt_bunch := None;
     opt_bunchEps := None;
     opt_bunchPrecisionCount := None |}.

Definition fresh_top_right : CoordinateConverter float :=
  new_CoordinateConverter Math64 options_top_right.

(** Fresh converters over areas of negative width, of width zero, and
    unbounded both ways. *)
Definition fresh_negative : CoordinateConverter float :=
  new_CoordinateConverter Math64 (options_with ((-2)%float, 2%float) None).

Definition fresh_zero : CoordinateConverter float :=
  new_CoordinateConverter Math64 (options_with (0%float, 2%float) None).

Definition fresh_unbounded : CoordinateConverter float :=
  new_CoordinateConverter Math64 (options_with (infinity, infinity) None).

(** A full-HD canvas. *)
Definition canvas_1920x1080 : Three.DomElement float :=
  {| Three.width := 1920%float; Three.height := 1080%float |}.

Definition canvas_1920x1080_Q : Three.DomElement Q :=
  {| Three.width := 1920%Q; Three.height := 1080%Q |}.

(** A canvas that has no size yet. *)
Definition canvas_0x0 : Three.DomElement float :=
  {| Three.width := 0%float; Three.height := 0%float |}.

(** ** How a call to [bunch] proceeds *)

Section Clusterer.

Context {num : Type} `{Number num}.

Local Open Scope num_scope.

Implicit Types (this : CoordinateConverter num) (coord : XY num).

Ltac run_method :=
  cbv beta iota zeta delta
    [bunch bunch_default calcBunchAvarage push normalize inProjectionArea
     set_prevCoord set_bunchBuffer bind ret field in_area
     with_bunchBuffer with_prevCoord fst snd
     bunchBuffer prevCoord bunchEps bunchPrecisionCount options].

(** The loop over the buffer adds up each axis on its own. *)
Lemma accumulate_axes (buf : list (XY num)) (x y : num) :
  accumulate (x, y) buf
  = (fold_left num_add (map fst buf) x, fold_left num_add (map snd buf) y).
Proof.
  revert x y. induction buf as [| [px py] buf IH]; intros x y.
  - reflexivity.
  - simpl. apply IH.
Qed.

Lemma length_num_map {A B : Type} (f : A -> B) (l : list A) :
  length_num (map f l) = length_num l.
Proof. unfold length_num. now rewrite length_map. Qed.

(** [calcBunchAvarage] applies the precision rule and empties the buffer. *)
Lemma calcBunchAvarage_eq this :
  calcBunchAvarage this
  = (flush_rule (bunchPrecisionCount this) (bunchBuffer this),
     with_bunchBuffer [] this).
Proof.
  destruct this as [fov mat buf prev isN isB eps count opts].
  unfold flush_rule, centroid, mean, sum. rewrite !length_num_map.
  run_method.
  rewrite accumulate_axes.
  destruct (count <=? length_num buf); reflexivity.
Qed.

(** [bunch] laid out branch by branch, in terms of the object each branch
    starts from. *)
Lemma bunch_unfold this coord dataPlace :
  bunch coord dataPlace this
  = if negb (in_area this coord) then
      if nonempty (bunchBuffer this)
      then calcBunchAvarage (with_prevCoord coord this)
      else (None, with_prevCoord coord this)
    else
      match dataPlace with
      | First =>
          (None, with_prevCoord coord (with_bunchBuffer [coord] this))
      | Middle =>
          let r :=
            if nonempty (bunchBuffer this)
               && exceeds (bunchEps this) (prevCoord this) coord
            then calcBunchAvarage this
            else (None, this) in
          (fst r,
           with_prevCoord coord
             (with_bunchBuffer (bunchBuffer (snd r) ++ [coord]) (snd r)))
      | Last =>
          if nonempty (bunchBuffer this)
          then calcBunchAvarage this
          else (None, this)
      end.
Proof.
  destruct this as [fov mat buf prev isN isB eps count opts].
  unfold bunch, in_area, exceeds, normalize, inProjectionArea, bind, field, ret.
  cbn [fst snd options bunchBuffer prevCoord bunchEps].
  match goal with |- context [negb ?c] => destruct c end; cbn [negb].
  - destruct dataPlace.
    + reflexivity.
    + destruct buf; reflexivity.
    + destruct buf as [| p buf]; [reflexivity |].
      cbv beta iota zeta delta
        [nonempty length Nat.ltb Nat.leb andb bunchBuffer prevCoord bunchEps].
      destruct ((eps <? num_abs (fst prev - fst coord))
                || (eps <? num_abs (snd prev - snd coord))); reflexivity.
  - destruct buf; reflexivity.
Qed.

Lemma with_bunchBuffer_same this :
  with_bunchBuffer (bunchBuffer this) this = this.
Proof. now destruct this. Qed.

Lemma with_bunchBuffer_nil this :
  bunchBuffer this = [] -> with_bunchBuffer [] this = this.
Proof. intros <-. apply with_bunchBuffer_same. Qed.

Lemma nonempty_false {A : Type} (l : list A) : nonempty l = false -> l = [].
Proof. destruct l; [reflexivity | discriminate]. Qed.

(** A point outside the area: the buffer is flushed if it holds anything,
    and the point becomes the last-processed one. *)
Lemma bunch_outside this coord dataPlace :
  in_area this coord = false ->
  bunch coord dataPlace this
  = (if nonempty (bunchBuffer this)
     then flush_rule (bunchPrecisionCount this) (bunchBuffer this)
     else None,
     with_prevCoord coord (with_bunchBuffer [] this)).
Proof.
  intros Hout. rewrite bunch_unfold, Hout. cbn [negb].
  destruct (nonempty (bunchBuffer this)) eqn:Hbuf.
  - now rewrite calcBunchAvarage_eq.
  - apply nonempty_false in Hbuf.
    now rewrite (with_bunchBuffer_nil this Hbuf).
Qed.

(** The first point of a sweep, inside the area. *)
Lemma bunch_first this coord :
  in_area this coord = true ->
  bunch coord First this
  = (None, with_prevCoord coord (with_bunchBuffer [coord] this)).
Proof. intros Hin. now rewrite bunch_unfold, Hin. Qed.

(** A point in the middle of a sweep, inside the area. *)
Lemma bunch_middle this coord :
  in_area this coord = true ->
  let gap := nonempty (bunchBuffer this)
             && exceeds (bunchEps this) (prevCoord this) coord in
  bunch coord Middle this
  = (if gap
     then flush_rule (bunchPrecisionCount this) (bunchBuffer this)
     else None,
     with_prevCoord coord
       (with_bunchBuffer
          (if gap then [coord] else bunchBuffer this ++ [coord]) this)).
Proof.
  intros Hin gap. rewrite bunch_unfold, Hin. cbn [negb]. fold gap.
  destruct gap.
  - now rewrite calcBunchAvarage_eq.
  - reflexivity.
Qed.

(** The last point of a sweep, inside the area: it is neither buffered nor
    recorded. *)
Lemma bunch_last this coord :
  in_area this coord = true ->
  bunch coord Last this
  = (if nonempty (bunchBuffer this)
     then flush_rule (bunchPrecisionCount this) (bunchBuffer this)
     else None,
     with_bunchBuffer [] this).
Proof.
  intros Hin. rewrite bunch_unfold, Hin. cbn [negb].
  destruct (nonempty (bunchBuffer this)) eqn:Hbuf.
  - now rewrite calcBunchAvarage_eq.
  - apply nonempty_false in Hbuf.
    now rewrite (with_bunchBuffer_nil this Hbuf).
Qed.

(** [below] excludes [exceeds]. *)
Lemma below_not_exceeds (eps : num) (p q : XY num) :
  below eps p q = true -> exceeds eps p q = false.
Proof.
  unfold below, exceeds. intros Hb.
  apply andb_true_iff in Hb as [Hx Hy].
  now rewrite (num_ltb_asym _ _ Hx), (num_ltb_asym _ _ Hy).
Qed.

Lemma same_readonly_refl this : same_readonly this this.
Proof. repeat split. Qed.

Lemma same_readonly_trans this1 this2 this3 :
  same_readonly this1 this2 -> same_readonly this2 this3 ->
  same_readonly this1 this3.
Proof.
  unfold same_readonly.
  intros (?&?&?&?&?&?&?) (?&?&?&?&?&?&?). repeat split; congruence.
Qed.

Lemma bunch_same_readonly this coord dataPlace :
  same_readonly this (snd (bunch coord dataPlace this)).
Proof.
  destruct (in_area this coord) eqn:Hin.
  - destruct dataPlace.
    + rewrite bunch_first by assumption. repeat split.
    + rewrite bunch_last by assumption. repeat split.
    + rewrite bunch_middle by assumption. repeat split.
  - rewrite bunch_outside by assumption. repeat split.
Qed.

Lemma run_cons coord dataPlace calls this :
  run ((coord, dataPlace) :: calls) this
  = (fst (bunch coord dataPlace this)
       :: fst (run calls (snd (bunch coord dataPlace this))),
     snd (run calls (snd (bunch coord dataPlace this)))).
Proof.
  cbn [run]. unfold bind, ret.
  destruct (bunch coord dataPlace this) as [r this1].
  cbn [fst snd]. now destruct (run calls this1).
Qed.

Lemma run_same_readonly calls this :
  same_readonly this (snd (run calls this)).
Proof.
  revert this. induction calls as [| [coord dataPlace] calls IH]; intros this.
  - apply same_readonly_refl.
  - rewrite run_cons. cbn [snd].
    eapply same_readonly_trans; [apply bunch_same_readonly | apply IH].
Qed.

Lemma in_area_same_readonly this this' coord :
  same_readonly this this' -> in_area this' coord = in_area this coord.
Proof.
  intros (_&_&_&_&_&_&Hopts).
  cbv beta iota zeta delta
    [in_area bind normalize inProjectionArea field ret fst snd].
  now rewrite Hopts.
Qed.

Lemma run_app calls1 calls2 this :
  run (calls1 ++ calls2) this
  = (fst (run calls1 this) ++ fst (run calls2 (snd (run calls1 this))),
     snd (run calls2 (snd (run calls1 this)))).
Proof.
  revert this. induction calls1 as [| [coord dataPlace] calls1 IH]; intros this.
  - cbn [app run ret fst snd]. now destruct (run calls2 this).
  - cbn [app]. rewrite !run_cons, IH. reflexivity.
Qed.


Lemma last_cons_default {A : Type} (x : A) (l : list A) (d d' : A) :
  last (x :: l) d = last (x :: l) d'.
Proof.
  revert x. induction l as [| y l IH]; intros x; [reflexivity |].
  change (last (y :: l) d = last (y :: l) d'). apply IH.
Qed.

(** A run of [Middle] points inside the area, each within [bunchEps] of its
    predecessor, only grows a buffer that is already under way. *)
Lemma run_middle_chain (pts : list (XY num)) this :
  nonempty (bunchBuffer this) = true ->
  forallb (in_area this) pts = true ->
  chain_below (bunchEps this) (prevCoord this) pts = true ->
  run (map (fun p => (p, Middle)) pts) this
  = (map (fun _ => None) pts,
     with_prevCoord (last pts (prevCoord this))
       (with_bunchBuffer (bunchBuffer this ++ pts) this)).
Proof.
  revert this. induction pts as [| p rest IH]; intros this Hbuf Hin Hchain.
  - cbn [map run ret last]. rewrite app_nil_r. now destruct this.
  - cbn [forallb] in Hin. apply andb_true_iff in Hin as [Hp Hrest].
    cbn [chain_below] in Hchain.
    apply andb_true_iff in Hchain as [Hnear Hchain].
    apply below_not_exceeds in Hnear.
    cbn [map]. rewrite run_cons.
    rewrite (bunch_middle this p Hp). cbn zeta.
    rewrite Hnear, andb_false_r. cbn [fst snd].
    rewrite IH.
    + cbn [fst snd map]. f_equal.
      change (bunchBuffer
                (with_prevCoord p
                   (with_bunchBuffer (bunchBuffer this ++ [p]) this)))
        with (bunchBuffer this ++ [p]).
      rewrite <- app_assoc. cbn [app].
      replace (last (p :: rest) (prevCoord this)) with (last rest p).
      * reflexivity.
      * destruct rest as [| r rest']; [reflexivity |].
        change (last (r :: rest') p = last (r :: rest') (prevCoord this)).
        apply last_cons_default.
    + cbn. now destruct (bunchBuffer this).
    + exact Hrest.
    + exact Hchain.
Qed.

(** ** The cluster state machine, call by call *)

(** C5.  A flush returns the per-axis arithmetic mean of the buffered points
    when the buffer holds at least [bunchPrecisionCount] of them and nothing
    otherwise; either way the buffer is empty afterwards (and nothing else
    of the object changes). *)
Theorem flush_applies_precision_rule this :
  fst (calcBunchAvarage this)
  = (if bunchPrecisionCount this <=? length_num (bunchBuffer this)
     then Some (mean (map fst (bunchBuffer this)),
                mean (map snd (bunchBuffer this)))
     else None)
  /\ bunchBuffer (snd (calcBunchAvarage this)) = []
  /\ prevCoord (snd (calcBunchAvarage this)) = prevCoord this
  /\ same_readonly this (snd (calcBunchAvarage this)).
Proof.
  rewrite calcBunchAvarage_eq. cbn [fst snd].
  repeat split.
Qed.

(** C6.  A [First] point inside the area never yields a centroid, whatever
    the buffer held: the buffer restarts as exactly that point, which also
    becomes the last-processed point. *)
Theorem first_in_area_restarts_buffer this coord :
  in_area this coord = true ->
  fst (bunch coord First this) = None
  /\ bunchBuffer (snd (bunch coord First this)) = [coord]
  /\ prevCoord (snd (bunch coord First this)) = coord.
Proof.
  intros Hin. rewrite (bunch_first this coord Hin). repeat split.
Qed.

(** C4.  A point outside the area, whatever its tag, is never buffered.  A
    non-empty buffer is flushed and the flush result returned, and that
    result is the precision rule applied to the buffer as it stood before
    the call: the per-axis mean of its points when it holds at least
    [bunchPrecisionCount] of them, none otherwise.  An empty buffer gives
    none.  The buffer is empty after the call. *)
Theorem outside_point_flushes this coord dataPlace :
  in_area this coord = false ->
  fst (bunch coord dataPlace this)
  = (if nonempty (bunchBuffer this)
     then fst (calcBunchAvarage this)
     else None)
  /\ fst (calcBunchAvarage this)
     = flush_rule (bunchPrecisionCount this) (bunchBuffer this)
  /\ flush_rule (bunchPrecisionCount this) (bunchBuffer this)
     = (if bunchPrecisionCount this <=? length_num (bunchBuffer this)
        then Some (mean (map fst (bunchBuffer this)),
                   mean (map snd (bunchBuffer this)))
        else None)
  /\ bunchBuffer (snd (bunch coord dataPlace this)) = []
  /\ ~ In coord (bunchBuffer (snd (bunch coord dataPlace this))).
Proof.
  intros Hout. rewrite (bunch_outside this coord dataPlace Hout).
  rewrite calcBunchAvarage_eq. cbn [fst snd].
  repeat split. intros [].
Qed.

(** C3.  A [Middle] point inside the area.  If the buffer is non-empty and
    the point is more than [bunchEps] away from the last-processed point on
    some axis, the buffer as it stood before the call is flushed under the
    precision rule, that result is returned, and the buffer then holds the
    point alone.  Otherwise the point is appended and none is returned. *)
Theorem middle_in_area_flushes_on_gap this coord :
  in_area this coord = true ->
  let gap := nonempty (bunchBuffer this)
             && exceeds (bunchEps this) (prevCoord this) coord in
  fst (bunch coord Middle this)
  = (if gap then fst (calcBunchAvarage this) else None)
  /\ fst (calcBunchAvarage this)
     = flush_rule (bunchPrecisionCount this) (bunchBuffer this)
  /\ bunchBuffer (snd (bunch coord Middle this))
     = (if gap then [coord] else bunchBuffer this ++ [coord]).
Proof.
  intros Hin gap. rewrite (bunch_middle this coord Hin).
  rewrite calcBunchAvarage_eq. cbn [fst snd]. fold gap.
  repeat split.
Qed.

(** C2, amended.  After a call the last-processed point is the argument,
    except for a [Last] point inside the area, which leaves it as it was. *)
Theorem prevCoord_after_bunch this coord dataPlace :
  prevCoord (snd (bunch coord dataPlace this))
  = if in_area this coord
       && match dataPlace with Last => true | _ => false end
    then prevCoord this
    else coord.
Proof.
  destruct (in_area this coord) eqn:Hin.
  - destruct dataPlace; cbn [andb].
    + now rewrite bunch_first.
    + now rewrite bunch_last.
    + now rewrite bunch_middle.
  - now rewrite bunch_outside.
Qed.


(** ** What the buffer holds along a run *)

Lemma flush_rule_some (count : num) (buf : list (XY num)) (c : XY num) :
  flush_rule count buf = Some c -> c = centroid buf.
Proof.
  unfold flush_rule. destruct (count <=? length_num buf); congruence.
Qed.

Lemma nonempty_true {A : Type} (l : list A) : nonempty l = true -> l <> [].
Proof. destruct l; [discriminate | discriminate]. Qed.

(** One call keeps the buffer inside the area, and a centroid it returns is
    the centroid of the non-empty buffer the call started from. *)
Lemma bunch_invariant this0 this coord dataPlace :
  same_readonly this0 this ->
  Forall (fun p => in_area this0 p = true) (bunchBuffer this) ->
  Forall (fun p => in_area this0 p = true)
    (bunchBuffer (snd (bunch coord dataPlace this)))
  /\ forall c, fst (bunch coord dataPlace this) = Some c ->
       bunchBuffer this <> [] /\ c = centroid (bunchBuffer this).
Proof.
  intros Hro Hbuf.
  pose proof (in_area_same_readonly this0 this coord Hro) as Harea.
  destruct (in_area this coord) eqn:Hin.
  - destruct dataPlace.
    + rewrite bunch_first by assumption. cbn [fst snd]. split.
      * constructor; [congruence | constructor].
      * discriminate.
    + rewrite bunch_last by assumption. cbn [fst snd]. split.
      * constructor.
      * intros c Hc. destruct (nonempty (bunchBuffer this)) eqn:Hne.
        -- split; [now apply nonempty_true | now apply flush_rule_some in Hc].
        -- discriminate.
    + rewrite bunch_middle by assumption. cbn zeta. cbn [fst snd].
      destruct (nonempty (bunchBuffer this)) eqn:Hne; cbn [andb].
      * destruct (exceeds _ _ _); split.
        -- constructor; [congruence | constructor].
        -- intros c Hc.
           split; [now apply nonempty_true | now apply flush_rule_some in Hc].
        -- apply Forall_app. split; [exact Hbuf |].
           constructor; [congruence | constructor].
        -- discriminate.
      * split; [| discriminate].
        apply Forall_app. split; [exact Hbuf |].
        constructor; [congruence | constructor].
  - rewrite bunch_outside by assumption. cbn [fst snd]. split.
    + constructor.
    + intros c Hc. destruct (nonempty (bunchBuffer this)) eqn:Hne.
      * split; [now apply nonempty_true | now apply flush_rule_some in Hc].
      * discriminate.
Qed.

Lemma run_invariant this0 calls this :
  same_readonly this0 this ->
  Forall (fun p => in_area this0 p = true) (bunchBuffer this) ->
  Forall (fun p => in_area this0 p = true) (bunchBuffer (snd (run calls this)))
  /\ forall c, In (Some c) (fst (run calls this)) ->
       exists pts, pts <> []
                   /\ Forall (fun p => in_area this0 p = true) pts
                   /\ c = centroid pts.
Proof.
  revert this.
  induction calls as [| [coord dataPlace] calls IH]; intros this Hro Hbuf.
  - cbn [run ret fst snd]. split; [exact Hbuf | intros c []].
  - rewrite run_cons. cbn [fst snd].
    destruct (bunch_invariant this0 this coord dataPlace Hro Hbuf)
      as [Hbuf1 Hout1].
    assert (Hro1 : same_readonly this0 (snd (bunch coord dataPlace this))).
    { eapply same_readonly_trans; [exact Hro | apply bunch_same_readonly]. }
    destruct (IH _ Hro1 Hbuf1) as [Hbuf2 Hout2].
    split; [exact Hbuf2 |].
    intros c [Hc | Hc].
    + destruct (Hout1 c Hc) as [Hne ->].
      exists (bunchBuffer this). now repeat split.
    + now apply Hout2.
Qed.

(** ** What [bunch] depends on *)

Lemma in_area_options this this' coord :
  options this' = options this -> in_area this' coord = in_area this coord.
Proof.
  intros Hopts.
  cbv beta iota zeta delta
    [in_area bind normalize inProjectionArea field ret fst snd].
  now rewrite Hopts.
Qed.

Lemma bunch_same_cluster this this' coord dataPlace :
  same_cluster this this' ->
  fst (bunch coord dataPlace this') = fst (bunch coord dataPlace this)
  /\ same_cluster (snd (bunch coord dataPlace this))
       (snd (bunch coord dataPlace this')).
Proof.
  intros (Hopts & Heps & Hcount & Hbuf & Hprev).
  pose proof (in_area_options this this' coord Hopts) as Harea.
  destruct (in_area this coord) eqn:Hin.
  - destruct dataPlace.
    + rewrite !bunch_first by assumption.
      repeat split; try assumption. now right.
    + rewrite !bunch_last by assumption. cbn [fst snd].
      rewrite Hbuf, Hcount. repeat split; try assumption. now left.
    + rewrite !bunch_middle by assumption. cbn zeta. cbn [fst snd].
      rewrite Hbuf, Hcount, Heps.
      assert (Hgap : nonempty (bunchBuffer this)
                     && exceeds (bunchEps this) (prevCoord this') coord
                     = nonempty (bunchBuffer this)
                       && exceeds (bunchEps this) (prevCoord this) coord).
      { destruct Hprev as [-> | ->]; reflexivity. }
      rewrite Hgap. repeat split; try assumption. now right.
  - rewrite !bunch_outside by assumption. cbn [fst snd].
    rewrite Hbuf, Hcount. repeat split; try assumption. now left.
Qed.

Lemma run_same_cluster calls this this' :
  same_cluster this this' -> fst (run calls this') = fst (run calls this).
Proof.
  revert this this'.
  induction calls as [| [coord dataPlace] calls IH]; intros this this' Hsame.
  - reflexivity.
  - rewrite !run_cons. cbn [fst].
    destruct (bunch_same_cluster this this' coord dataPlace Hsame)
      as [-> Hnext].
    f_equal. now apply IH.
Qed.

(** What [sin], [cos] and [PI] are does not matter to [bunch]. *)
Lemma run_any_Math (Math Math' : MathObject num)
  (opts : CoordinateConverterOptions num) calls :
  fst (run calls (new_CoordinateConverter Math' opts))
  = fst (run calls (new_CoordinateConverter Math opts)).
Proof.
  apply run_same_cluster. repeat split. now left.
Qed.

(** Nor does the initial last-processed point: it is overwritten before it
    is ever compared. *)
Lemma run_ignores_initial_prevCoord (Math : MathObject num)
  (opts : CoordinateConverterOptions num) (p : XY num) calls :
  fst (run calls (with_prevCoord p (new_CoordinateConverter Math opts)))
  = fst (run calls (new_CoordinateConverter Math opts)).
Proof.
  apply run_same_cluster. repeat split. now left.
Qed.

(** Nor would it matter if the [Last] branch recorded its argument: the
    buffer is empty after it, so the last-processed point is assigned again
    before it is next compared. *)
Lemma recording_the_last_point_changes_nothing this coord calls :
  in_area this coord = true ->
  fst (run calls (with_prevCoord coord (snd (bunch coord Last this))))
  = fst (run calls (snd (bunch coord Last this))).
Proof.
  intros Hin. apply run_same_cluster.
  rewrite (bunch_last this coord Hin). repeat split. now left.
Qed.

(** ** Methods without assignments *)

Lemma convert_leaves_this Math this (distance dataIndex datasLength : num) :
  snd (convert Math distance dataIndex datasLength this) = this.
Proof. reflexivity. Qed.

Lemma normalize_leaves_this this coord : snd (normalize coord this) = this.
Proof. reflexivity. Qed.

Lemma inProjectionArea_leaves_this this coord :
  snd (inProjectionArea coord this) = this.
Proof. reflexivity. Qed.

Lemma convert_same_readonly Math this this'
  (distance dataIndex datasLength : num) :
  same_readonly this this' ->
  fst (convert Math distance dataIndex datasLength this')
  = fst (convert Math distance dataIndex datasLength this).
Proof.
  intros (Hfov & Hmat & _ & _ & _ & _ & Hopts).
  cbv beta iota zeta delta [convert bind field ret].
  cbn [fst]. now rewrite Hfov, Hmat, Hopts.
Qed.

Lemma normalize_same_readonly this this' coord :
  same_readonly this this' ->
  fst (normalize coord this') = fst (normalize coord this).
Proof.
  intros (_ & _ & _ & _ & _ & _ & Hopts).
  cbv beta iota zeta delta [normalize bind field ret].
  cbn [fst]. now rewrite Hopts.
Qed.

(** [inProjectionArea] is the conjunction of its four comparisons. *)
Lemma inProjectionArea_true_iff this (n : XY num) :
  fst (inProjectionArea n this) = true
  <-> ((lit (-1) <=? fst n) = true /\ (fst n <=? lit 1) = true)
      /\ ((lit (-1) <=? snd n) = true /\ (snd n <=? lit 1) = true).
Proof.
  cbv beta iota zeta delta [inProjectionArea ret].
  cbn [fst]. rewrite !andb_true_iff. tauto.
Qed.

End Clusterer.

(** ** Exact arithmetic *)

Section ExactArithmetic.

Local Open Scope Q_scope.

Implicit Types (this : CoordinateConverter Q) (p : XY Q).

Lemma Qltb_true_iff (a b : Q) : Qltb a b = true <-> a < b.
Proof.
  unfold Qltb. rewrite negb_true_iff. split.
  - intros Hle. apply Qnot_le_lt. intros Hba.
    apply Qle_bool_iff in Hba. congruence.
  - intros Hlt. destruct (Qle_bool b a) eqn:Hba; [| reflexivity].
    apply Qle_bool_iff in Hba. exfalso. apply (Qlt_not_le _ _ Hlt Hba).
Qed.

(** Dividing by a positive half-extent [k] lands in [-1, 1] exactly for the
    numbers of magnitude at most [k]. *)
Lemma Qdiv_between (x k : Q) :
  0 < k -> (-(1) <= x / k /\ x / k <= 1 <-> Qabs x <= k).
Proof.
  intros Hk. rewrite Qabs_Qle_condition.
  assert (Hx : x == x / k * k) by (field; lra).
  split; intros [Hlo Hhi].
  - revert Hx Hlo Hhi. generalize (x / k). intros y Hx Hlo Hhi. split; nra.
  - split.
    + apply Qle_shift_div_l; [assumption | lra].
    + apply Qle_shift_div_r; [assumption | lra].
Qed.

Lemma Qhalf_pos (w : Q) : 0 < w -> 0 < w / inject_Z 2.
Proof. intros Hw. apply Qlt_shift_div_l; [reflexivity | lra]. Qed.

Lemma in_area_Q_iff this p :
  in_area this p = true
  <-> (-(1) <= fst p / (fst (projectionAreaSize (options this)) / inject_Z 2)
       /\ fst p / (fst (projectionAreaSize (options this)) / inject_Z 2) <= 1)
      /\ (-(1) <= snd p / (snd (projectionAreaSize (options this)) / inject_Z 2)
          /\ snd p / (snd (projectionAreaSize (options this)) / inject_Z 2)
             <= 1).
Proof.
  unfold in_area.
  cbv beta iota zeta delta [bind normalize field ret].
  rewrite inProjectionArea_true_iff.
  cbn [fst snd num_leb Q_Number lit].
  rewrite !Qle_bool_iff. reflexivity.
Qed.

Lemma in_area_half_extents_Q this p : in_area_iff_within_half_extents this p.
Proof.
  unfold in_area_iff_within_half_extents. cbn zeta.
  cbn [num_ltb num_leb num_abs num_div lit Q_Number].
  rewrite !Qltb_true_iff. intros Hw Hh.
  rewrite in_area_Q_iff, !Qle_bool_iff.
  rewrite (Qdiv_between (fst p) _ (Qhalf_pos _ Hw)).
  rewrite (Qdiv_between (snd p) _ (Qhalf_pos _ Hh)).
  reflexivity.
Qed.

Lemma inject_length_succ {A : Type} (x : A) (l : list A) :
  inject_Z (Z.of_nat (length (x :: l))) == inject_Z (Z.of_nat (length l)) + 1.
Proof.
  cbn [length]. rewrite Nat2Z.inj_succ, <- Z.add_1_r, inject_Z_plus.
  reflexivity.
Qed.

(** Adding up numbers whose multiples by [c] lie in [-1, 1] moves the
    multiple of the running total by at most one per number. *)
Lemma fold_scaled_bounds (c : Q) (l : list Q) (a : Q) :
  Forall (fun x => -(1) <= x * c /\ x * c <= 1) l ->
  a * c - inject_Z (Z.of_nat (length l)) <= fold_left Qplus l a * c
  /\ fold_left Qplus l a * c <= a * c + inject_Z (Z.of_nat (length l)).
Proof.
  revert a. induction l as [| x l IH]; intros a Hall.
  - change (inject_Z (Z.of_nat (length (@nil Q)))) with 0.
    cbn [fold_left]. split; lra.
  - inversion Hall as [| ? ? [Hlo Hhi] Hrest]; subst.
    cbn [fold_left]. rewrite inject_length_succ.
    destruct (IH (a + x) Hrest) as [IHlo IHhi].
    split; nra.
Qed.

Lemma mean_scaled_bounds (k : Q) (l : list Q) :
  l <> [] ->
  Forall (fun x => -(1) <= x / k /\ x / k <= 1) l ->
  -(1) <= mean l / k /\ mean l / k <= 1.
Proof.
  intros Hne Hall.
  unfold mean, sum, length_num. cbn [lit num_div num_add Q_Number].
  pose proof (fold_scaled_bounds (/ k) l (inject_Z 0) Hall) as [Hlo Hhi].
  assert (Hn : 0 < inject_Z (Z.of_nat (length l))).
  { destruct l as [| x l]; [congruence |].
    rewrite inject_length_succ.
    assert (0 <= inject_Z (Z.of_nat (length l))).
    { change 0 with (inject_Z 0). rewrite <- Zle_Qle. lia. }
    lra. }
  revert Hlo Hhi Hn.
  generalize (inject_Z (Z.of_nat (length l))). intros n.
  generalize (fold_left Qplus l (inject_Z 0)). intros s Hlo Hhi Hn.
  change (inject_Z 0) with 0 in Hlo, Hhi.
  assert (Heq : s / n / k == s * / k / n) by (unfold Qdiv; ring).
  rewrite Heq. split.
  - apply Qle_shift_div_l; [assumption | lra].
  - apply Qle_shift_div_r; [assumption | lra].
Qed.

(** Over the rationals the area is closed under centroids. *)
Lemma centroid_in_area_Q this (pts : list (XY Q)) :
  pts <> [] ->
  Forall (fun p => in_area this p = true) pts ->
  in_area this (centroid pts) = true.
Proof.
  intros Hne Hall. apply in_area_Q_iff. unfold centroid. cbn [fst snd].
  split; apply mean_scaled_bounds.
  - destruct pts; [congruence | discriminate].
  - apply Forall_map. eapply Forall_impl; [| exact Hall].
    intros p Hp. exact (proj1 (proj1 (in_area_Q_iff this p) Hp)).
  - destruct pts; [congruence | discriminate].
  - apply Forall_map. eapply Forall_impl; [| exact Hall].
    intros p Hp. exact (proj2 (proj1 (in_area_Q_iff this p) Hp)).
Qed.

End ExactArithmetic.

(** ** IEEE-754 doubles

    Dividing by a positive finite double and comparing with 1, from the
    definition of binary64 division ([SFdiv]): digit counts, the alignment
    shift, and round-to-nearest-even. *)

Module Binary64.

Local Open Scope Z_scope.

(** *** Binary digits *)
Lemma digits2_pos_bounds (p : positive) :
  2 ^ (Z.pos (digits2_pos p) - 1) <= Z.pos p < 2 ^ Z.pos (digits2_pos p).
Proof.
  induction p as [p IH | p IH |].
  - cbn [digits2_pos]. rewrite Pos2Z.inj_succ.
    replace (Z.succ (Z.pos (digits2_pos p)) - 1)
      with (Z.succ (Z.pos (digits2_pos p) - 1)) by lia.
    rewrite !Z.pow_succ_r by lia. lia.
  - cbn [digits2_pos]. rewrite Pos2Z.inj_succ.
    replace (Z.succ (Z.pos (digits2_pos p)) - 1)
      with (Z.succ (Z.pos (digits2_pos p) - 1)) by lia.
    rewrite !Z.pow_succ_r by lia. lia.
  - cbn. lia.
Qed.

Lemma Zdigits2_bounds (z : Z) :
  0 < z -> 0 < Zdigits2 z /\ 2 ^ (Zdigits2 z - 1) <= z < 2 ^ Zdigits2 z.
Proof.
  destruct z as [| p | p]; try lia. intros _.
  cbn [Zdigits2]. split; [lia | apply digits2_pos_bounds].
Qed.

Lemma Zdigits2_le (z d : Z) : 0 < z -> z < 2 ^ d -> Zdigits2 z <= d.
Proof.
  intros Hz Hlt. destruct (Zdigits2_bounds z Hz) as [Hd [Hlo _]].
  destruct (Z_lt_le_dec d 0) as [Hneg | Hnn].
  - rewrite Z.pow_neg_r in Hlt by assumption. lia.
  - destruct (Z_le_gt_dec (Zdigits2 z) d) as [? | Hgt]; [assumption |].
    assert (2 ^ d <= 2 ^ (Zdigits2 z - 1)) by (apply Z.pow_le_mono_r; lia).
    lia.
Qed.

Lemma Zdigits2_ge (z d : Z) : 0 < z -> 2 ^ (d - 1) <= z -> d <= Zdigits2 z.
Proof.
  intros Hz Hge.
  destruct (Zdigits2_bounds z Hz) as [Hd [_ Hhi]].
  destruct (Z_le_gt_dec d (Zdigits2 z)) as [? | Hgt]; [assumption |].
  assert (2 ^ Zdigits2 z <= 2 ^ (d - 1)) by (apply Z.pow_le_mono_r; lia).
  lia.
Qed.

(** *** Right shifts *)
Lemma shr_1_m (mrs : shr_record) :
  0 <= shr_m mrs -> shr_m (shr_1 mrs) = shr_m mrs / 2.
Proof.
  destruct mrs as [m r s]. cbn [shr_m shr_1]. intros Hm.
  destruct m as [| [p | p |] | p]; cbn [shr_m].
  - reflexivity.
  - apply Z.div_unique with 1; lia.
  - apply Z.div_unique with 0; lia.
  - reflexivity.
  - exfalso. lia.
Qed.

Lemma pow2_xO (p : positive) : 2 ^ Z.pos p~0 = 2 ^ Z.pos p * 2 ^ Z.pos p.
Proof.
  rewrite <- Z.pow_add_r by lia. f_equal. lia.
Qed.

Lemma pow2_xI (p : positive) :
  2 ^ Z.pos p~1 = 2 * (2 ^ Z.pos p * 2 ^ Z.pos p).
Proof.
  rewrite <- Z.pow_add_r by lia.
  rewrite <- (Z.pow_succ_r 2 (Z.pos p + Z.pos p)) by lia. f_equal. lia.
Qed.

Lemma iter_shr_1_m (p : positive) (mrs : shr_record) :
  0 <= shr_m mrs ->
  shr_m (iter_pos shr_1 p mrs) = shr_m mrs / 2 ^ Z.pos p.
Proof.
  revert mrs. induction p as [p IH | p IH |]; intros mrs Hm.
  - cbn [iter_pos].
    assert (Hp : 0 < 2 ^ Z.pos p) by (apply Z.pow_pos_nonneg; lia).
    assert (H1 : 0 <= shr_m (shr_1 mrs)).
    { rewrite shr_1_m by assumption. apply Z.div_pos; lia. }
    assert (H2 : 0 <= shr_m (iter_pos shr_1 p (shr_1 mrs))).
    { rewrite IH by assumption. apply Z.div_pos; lia. }
    rewrite IH, IH, shr_1_m by assumption.
    rewrite !Z.div_div by lia.
    now rewrite pow2_xI.
  - cbn [iter_pos].
    assert (Hp : 0 < 2 ^ Z.pos p) by (apply Z.pow_pos_nonneg; lia).
    assert (H2 : 0 <= shr_m (iter_pos shr_1 p mrs)).
    { rewrite IH by assumption. apply Z.div_pos; lia. }
    rewrite IH, IH by assumption.
    rewrite !Z.div_div by lia.
    now rewrite pow2_xO.
  - cbn [iter_pos]. rewrite shr_1_m by assumption. reflexivity.
Qed.

Lemma shr_record_of_loc_m (m : Z) (l : location) :
  shr_m (shr_record_of_loc m l) = m.
Proof. destruct l as [| []]; reflexivity. Qed.

Lemma loc_of_shr_record_of_loc (m : Z) (l : location) :
  loc_of_shr_record (shr_record_of_loc m l) = l.
Proof. destruct l as [| []]; reflexivity. Qed.

Abbreviation fexp64 := (fexp prec emax).

Lemma fexp64_eq (k : Z) : fexp64 k = Z.max (k - 53) (-1074).
Proof. reflexivity. Qed.

(** What [shr_fexp] does to a non-negative mantissa. *)
Lemma shr_fexp_shift (q e : Z) (l : location) :
  0 <= q -> 0 < fexp64 (Zdigits2 q + e) - e ->
  exists mrs,
    shr_fexp prec emax q e l = (mrs, fexp64 (Zdigits2 q + e))
    /\ shr_m mrs = q / 2 ^ (fexp64 (Zdigits2 q + e) - e).
Proof.
  intros Hq Hn. unfold shr_fexp, shr.
  destruct (fexp64 (Zdigits2 q + e) - e) as [| n | n] eqn:Hdiff; try lia.
  eexists. split.
  - f_equal. lia.
  - rewrite iter_shr_1_m by (rewrite shr_record_of_loc_m; assumption).
    now rewrite shr_record_of_loc_m.
Qed.

Lemma shr_fexp_keep (q e : Z) (l : location) :
  fexp64 (Zdigits2 q + e) - e <= 0 ->
  shr_fexp prec emax q e l = (shr_record_of_loc q l, e).
Proof.
  intros Hn. unfold shr_fexp, shr.
  destruct (fexp64 (Zdigits2 q + e) - e) as [| n | n]; try lia; reflexivity.
Qed.

Lemma round_nearest_even_bounds (m : Z) (l : location) :
  m <= round_nearest_even m l <= m + 1.
Proof.
  destruct l as [| []]; cbn [round_nearest_even]; try lia.
  destruct (Z.even m); lia.
Qed.

(** Mantissas are compared as integers. *)
Lemma compare_cont_Z (p q : positive) :
  PosDef.Pos.compare_cont Eq p q = (Z.pos p ?= Z.pos q).
Proof. reflexivity. Qed.

(** A valid finite double: at most 53 digits, at the least exponent when
    fewer. *)
Lemma bounded_canonical (m : positive) (e : Z) :
  bounded prec emax m e = true ->
  e = fexp64 (Zdigits2 (Z.pos m) + e) /\ e <= 971.
Proof.
  unfold bounded, canonical_mantissa. intros Hb.
  apply andb_true_iff in Hb as [Hc He].
  apply Z.eqb_eq in Hc. apply Z.leb_le in He.
  cbn [Zdigits2]. split; [now symmetry | exact He].
Qed.

Lemma SFdiv_core_binary_eq (mx my : positive) (ex ey : Z) :
  let e' := Z.min (fexp64 (Zdigits2 (Z.pos mx) + ex
                           - (Zdigits2 (Z.pos my) + ey))) (ex - ey) in
  let m' := Z.pos mx * 2 ^ (ex - ey - e') in
  SFdiv_core_binary prec emax (Z.pos mx) ex (Z.pos my) ey
  = (m' / Z.pos my, e', new_location (Z.pos my) (m' mod Z.pos my)).
Proof.
  intros e' m'. unfold SFdiv_core_binary. fold e'.
  assert (Hs : 0 <= ex - ey - e') by (unfold e'; lia).
  assert (Hm : match ex - ey - e' with
               | 0 => Z.pos mx
               | Z.pos _ => Z.shiftl (Z.pos mx) (ex - ey - e')
               | Z.neg _ => 0
               end = m').
  { unfold m'. destruct (ex - ey - e') as [| s | s] eqn:Hse.
    - rewrite Z.pow_0_r. lia.
    - rewrite Z.shiftl_mul_pow2 by lia. reflexivity.
    - lia. }
  rewrite Hm. unfold Z.div, Z.modulo.
  destruct (Z.div_eucl m' (Z.pos my)) as [q r]. reflexivity.
Qed.

Lemma new_location_zero (y : Z) : new_location y 0 = loc_Exact.
Proof.
  unfold new_location.
  destruct (Z.even y); reflexivity.
Qed.

Lemma new_location_inexact (y r : Z) :
  r <> 0 -> exists cmp, new_location y r = loc_Inexact cmp.
Proof.
  intros Hr. apply Z.eqb_neq in Hr. unfold new_location.
  destruct (Z.even y); unfold new_location_even, new_location_odd;
    rewrite Hr; eexists; reflexivity.
Qed.

Lemma new_location_gt (y r : Z) :
  0 < r -> y < 2 * r -> new_location y r = loc_Inexact Gt.
Proof.
  intros Hr Hy.
  assert (Hnz : (r =? 0) = false) by (apply Z.eqb_neq; lia).
  unfold new_location.
  destruct (Z.even y); unfold new_location_even, new_location_odd;
    rewrite Hnz.
  - f_equal. apply Z.compare_gt_iff. lia.
  - replace (2 * r + 1 ?= y) with Gt; [reflexivity |].
    symmetry. apply Z.compare_gt_iff. lia.
Qed.

(** Positive finite doubles are ordered by exponent, then mantissa. *)
Lemma finite_leb (mx my : positive) (ex ey : Z) :
  SFleb (S754_finite false mx ex) (S754_finite false my ey)
  = (ex <? ey) || ((ex =? ey) && (Z.pos mx <=? Z.pos my)).
Proof.
  unfold SFleb, SFcompare. rewrite compare_cont_Z.
  destruct (Z.compare_spec ex ey) as [Heq | Hlt | Hgt].
  - subst ey. rewrite Z.ltb_irrefl, Z.eqb_refl. cbn [orb andb].
    unfold Z.leb. destruct (Z.pos mx ?= Z.pos my); reflexivity.
  - apply Z.ltb_lt in Hlt. now rewrite Hlt.
  - replace (ex <? ey) with false by (symmetry; apply Z.ltb_ge; lia).
    replace (ex =? ey) with false by (symmetry; apply Z.eqb_neq; lia).
    reflexivity.
Qed.

Section RoundingAroundOne.

(** The mantissa of the double 1, kept abstract: 2^52. *)
Variable c : positive.
Hypothesis Hc : Z.pos c = 2 ^ 52.

Definition one_at : spec_float := S754_finite false c (-52).

(** The last step of [binary_round_aux]. *)
Definition round_finish (m e : Z) : spec_float :=
  let '(mrs, e') := shr_fexp prec emax m e loc_Exact in
  match shr_m mrs with
  | 0 => S754_zero false
  | Z.pos p =>
      if e' <=? emax - prec then S754_finite false p e'
      else S754_infinity false
  | Z.neg _ => S754_nan
  end.

Lemma binary_round_aux_finish (q e : Z) (l : location) :
  binary_round_aux prec emax false q e l
  = round_finish
      (round_nearest_even (shr_m (fst (shr_fexp prec emax q e l)))
         (loc_of_shr_record (fst (shr_fexp prec emax q e l))))
      (snd (shr_fexp prec emax q e l)).
Proof.
  unfold binary_round_aux, round_finish.
  destruct (shr_fexp prec emax q e l) as [mrs e1]. reflexivity.
Qed.

Lemma finite_gt_one (p : positive) (e : Z) :
  -51 <= e \/ (e = -52 /\ 2 ^ 52 < Z.pos p) ->
  SFleb (if e <=? emax - prec then S754_finite false p e
         else S754_infinity false) one_at = false.
Proof.
  intros He. destruct (e <=? emax - prec); [| reflexivity].
  unfold SFleb, SFcompare, one_at. rewrite compare_cont_Z.
  destruct He as [He | [-> He]].
  - replace (e ?= -52) with Gt; [reflexivity |].
    symmetry. apply Z.compare_gt_iff. lia.
  - rewrite Z.compare_refl.
    replace (Z.pos p ?= Z.pos c) with Gt; [reflexivity |].
    symmetry. apply Z.compare_gt_iff. lia.
Qed.

Lemma finite_le_one (p : positive) (e : Z) :
  e < -52 \/ (e = -52 /\ Z.pos p = 2 ^ 52) ->
  SFleb (if e <=? emax - prec then S754_finite false p e
         else S754_infinity false) one_at = true.
Proof.
  intros He.
  replace (e <=? emax - prec) with true
    by (symmetry; apply Z.leb_le; unfold emax, prec; lia).
  unfold SFleb, SFcompare, one_at. rewrite compare_cont_Z.
  destruct He as [He | [-> He]].
  - unfold Z.lt in He. rewrite He. reflexivity.
  - rewrite Z.compare_refl.
    replace (Z.pos p ?= Z.pos c) with Eq; [reflexivity |].
    symmetry. apply Z.compare_eq_iff. lia.
Qed.

(** Past 1 before the last step, past 1 after it. *)
Lemma round_finish_gt_one (m e : Z) :
  0 < m -> -51 <= e \/ (e = -52 /\ 2 ^ 52 < m) ->
  SFleb (round_finish m e) one_at = false.
Proof.
  intros Hm He. unfold round_finish.
  destruct (Zdigits2_bounds m Hm) as [Hd [Hlo Hhi]].
  destruct (Z_le_gt_dec (fexp64 (Zdigits2 m + e) - e) 0) as [Hkeep | Hshift].
  - rewrite shr_fexp_keep by assumption. cbn [shr_record_of_loc shr_m].
    destruct m as [| p | p]; try lia.
    apply finite_gt_one. exact He.
  - destruct (shr_fexp_shift m e loc_Exact) as (mrs & -> & Hmrs); try lia.
    rewrite Hmrs. rewrite fexp64_eq in *.
    assert (Hn : Z.max (Zdigits2 m + e - 53) (-1074) - e = Zdigits2 m - 53)
      by lia.
    rewrite Hn.
    assert (Hq : 2 ^ 52 <= m / 2 ^ (Zdigits2 m - 53)).
    { apply Z.div_le_lower_bound; [apply Z.pow_pos_nonneg; lia |].
      rewrite <- Z.pow_add_r by lia.
      replace (Zdigits2 m - 53 + 52) with (Zdigits2 m - 1) by lia.
      exact Hlo. }
    destruct (m / 2 ^ (Zdigits2 m - 53)) as [| p | p]; try lia.
    apply finite_gt_one. left. lia.
Qed.

(** At most 2^53 at an exponent of at most -53 before the last step, at
    most 1 after it. *)
Lemma round_finish_le_one (m e : Z) :
  0 <= m <= 2 ^ 53 -> -1074 <= e <= -53 ->
  SFleb (round_finish m e) one_at = true.
Proof.
  intros Hm He. unfold round_finish.
  destruct (Z.eq_dec m 0) as [-> | Hnz].
  - rewrite shr_fexp_keep by (cbn [Zdigits2]; rewrite fexp64_eq; lia).
    reflexivity.
  - assert (Hpos : 0 < m) by lia.
    destruct (Zdigits2_bounds m Hpos) as [Hd [Hlo Hhi]].
    destruct (Z.eq_dec m (2 ^ 53)) as [Heq | Hne].
    + assert (Hdig : Zdigits2 m = 54).
      { apply Z.le_antisymm.
        - apply Zdigits2_le; [lia |]. rewrite Heq.
          apply Z.pow_lt_mono_r; lia.
        - apply Zdigits2_ge; [lia |]. rewrite Heq. apply Z.le_refl. }
      destruct (shr_fexp_shift m e loc_Exact) as (mrs & Hshr & Hmrs);
        try (rewrite ?Hdig, ?fexp64_eq; lia).
      rewrite Hshr, Hmrs, Hdig, fexp64_eq.
      replace (Z.max (54 + e - 53) (-1074) - e) with 1 by lia.
      assert (Hhalf : m / 2 ^ 1 = 2 ^ 52).
      { rewrite Heq. change (2 ^ 53) with (2 ^ 52 * 2 ^ 1).
        apply Z.div_mul. discriminate. }
      rewrite Hhalf. rewrite <- Hc.
      apply finite_le_one. lia.
    + assert (Hdig : Zdigits2 m <= 53) by (apply Zdigits2_le; lia).
      rewrite shr_fexp_keep by (rewrite fexp64_eq; lia).
      cbn [shr_record_of_loc shr_m].
      destruct m as [| p | p]; try lia.
      apply finite_le_one. left. lia.
Qed.

Lemma Zdigits2_upper (q : Z) :
  0 <= q -> 0 <= Zdigits2 q /\ q < 2 ^ Zdigits2 q.
Proof.
  intros Hq. destruct (Z.eq_dec q 0) as [-> | Hnz].
  - cbn. lia.
  - destruct (Zdigits2_bounds q) as [Hd [_ Hhi]]; lia.
Qed.

(** Rounding a quotient below 1. *)
Lemma round_le_one (q e : Z) (l : location) :
  0 <= q < 2 ^ (- e) -> e <= -53 ->
  SFleb (binary_round_aux prec emax false q e l) one_at = true.
Proof.
  intros [Hq Hlt] He.
  rewrite binary_round_aux_finish.
  destruct (Zdigits2_upper q Hq) as [Hd Hhi].
  assert (Hde : Zdigits2 q <= - e).
  { destruct (Z.eq_dec q 0) as [-> | Hnz]; [cbn; lia |].
    apply Zdigits2_le; lia. }
  destruct (Z_le_gt_dec (fexp64 (Zdigits2 q + e) - e) 0) as [Hkeep | Hshift].
  - rewrite shr_fexp_keep by assumption. cbn [fst snd].
    rewrite shr_record_of_loc_m, loc_of_shr_record_of_loc.
    pose proof (round_nearest_even_bounds q l) as Hr.
    rewrite fexp64_eq in Hkeep.
    assert (Hq53 : q < 2 ^ 53).
    { apply Z.lt_le_trans with (1 := Hhi). apply Z.pow_le_mono_r; lia. }
    apply round_finish_le_one; lia.
  - destruct (shr_fexp_shift q e l) as (mrs & Hshr & Hmrs); try lia.
    rewrite Hshr. cbn [fst snd]. rewrite Hmrs.
    pose proof (round_nearest_even_bounds
                  (q / 2 ^ (fexp64 (Zdigits2 q + e) - e))
                  (loc_of_shr_record mrs)) as Hr.
    rewrite fexp64_eq in *.
    set (n := Z.max (Zdigits2 q + e - 53) (-1074) - e) in *.
    assert (Hpow : 0 < 2 ^ n) by (apply Z.pow_pos_nonneg; lia).
    assert (Hm1 : 0 <= q / 2 ^ n) by (apply Z.div_pos; lia).
    assert (Hm1' : q / 2 ^ n < 2 ^ 53).
    { apply Z.div_lt_upper_bound; [lia |].
      rewrite <- Z.pow_add_r by lia.
      apply Z.lt_le_trans with (1 := Hhi). apply Z.pow_le_mono_r; lia. }
    apply round_finish_le_one; lia.
Qed.

(** A shifted mantissa keeps its 53 leading digits. *)
Lemma shifted_mantissa_large (q : Z) :
  0 < q -> 53 <= Zdigits2 q -> 2 ^ 52 <= q / 2 ^ (Zdigits2 q - 53).
Proof.
  intros Hq Hd. destruct (Zdigits2_bounds q Hq) as [_ [Hlo _]].
  apply Z.div_le_lower_bound; [apply Z.pow_pos_nonneg; lia |].
  rewrite <- Z.pow_add_r by lia.
  replace (Zdigits2 q - 53 + 52) with (Zdigits2 q - 1) by lia.
  exact Hlo.
Qed.

(** Rounding a quotient at an exponent of at least -51. *)
Lemma round_gt_one_far (q e : Z) (l : location) :
  1 <= q -> -51 <= e ->
  SFleb (binary_round_aux prec emax false q e l) one_at = false.
Proof.
  intros Hq He.
  rewrite binary_round_aux_finish.
  destruct (Zdigits2_bounds q) as [Hd [Hlo Hhi]]; [lia |].
  destruct (Z_le_gt_dec (fexp64 (Zdigits2 q + e) - e) 0) as [Hkeep | Hshift].
  - rewrite shr_fexp_keep by assumption. cbn [fst snd].
    rewrite shr_record_of_loc_m, loc_of_shr_record_of_loc.
    pose proof (round_nearest_even_bounds q l) as Hr.
    apply round_finish_gt_one; lia.
  - destruct (shr_fexp_shift q e l) as (mrs & Hshr & Hmrs); try lia.
    rewrite Hshr. cbn [fst snd]. rewrite Hmrs.
    pose proof (round_nearest_even_bounds
                  (q / 2 ^ (fexp64 (Zdigits2 q + e) - e))
                  (loc_of_shr_record mrs)) as Hr.
    rewrite fexp64_eq in *.
    assert (Hn : Z.max (Zdigits2 q + e - 53) (-1074) - e = Zdigits2 q - 53)
      by lia.
    rewrite Hn in *.
    pose proof (shifted_mantissa_large q) as Hlarge.
    assert (0 < 2 ^ 52) by (apply Z.pow_pos_nonneg; lia).
    apply round_finish_gt_one; lia.
Qed.

(** Rounding a quotient at exponent -52. *)
Lemma round_gt_one_52 (q : Z) (l : location) :
  2 ^ 52 <= q -> 2 ^ 52 < q \/ l = loc_Inexact Gt ->
  SFleb (binary_round_aux prec emax false q (-52) l) one_at = false.
Proof.
  intros Hq Hup.
  assert (Hp52 : 0 < 2 ^ 52) by (apply Z.pow_pos_nonneg; lia).
  rewrite binary_round_aux_finish.
  destruct (Zdigits2_bounds q) as [Hd [Hlo Hhi]]; [lia |].
  assert (Hd53 : 53 <= Zdigits2 q) by (apply Zdigits2_ge; lia).
  destruct (Z_le_gt_dec (fexp64 (Zdigits2 q + -52) - -52) 0)
    as [Hkeep | Hshift].
  - rewrite shr_fexp_keep by assumption. cbn [fst snd].
    rewrite shr_record_of_loc_m, loc_of_shr_record_of_loc.
    pose proof (round_nearest_even_bounds q l) as Hr.
    apply round_finish_gt_one; [lia |]. right. split; [reflexivity |].
    destruct Hup as [Hgt | ->]; [lia |].
    cbn [round_nearest_even]. lia.
  - destruct (shr_fexp_shift q (-52) l) as (mrs & Hshr & Hmrs); try lia.
    rewrite Hshr. cbn [fst snd]. rewrite Hmrs.
    pose proof (round_nearest_even_bounds
                  (q / 2 ^ (fexp64 (Zdigits2 q + -52) - -52))
                  (loc_of_shr_record mrs)) as Hr.
    rewrite fexp64_eq in *.
    assert (Hn : Z.max (Zdigits2 q + -52 - 53) (-1074) - -52
                 = Zdigits2 q - 53) by lia.
    rewrite Hn in *.
    pose proof (shifted_mantissa_large q) as Hlarge.
    apply round_finish_gt_one; lia.
Qed.

(** Rounding a quotient at exponent -53. *)
Lemma round_gt_one_53 (q : Z) (l : location) :
  2 ^ 53 + 2 <= q ->
  SFleb (binary_round_aux prec emax false q (-53) l) one_at = false.
Proof.
  intros Hq.
  assert (Hp53 : 2 ^ 53 = 2 * 2 ^ 52) by reflexivity.
  assert (Hp52 : 0 < 2 ^ 52) by (apply Z.pow_pos_nonneg; lia).
  rewrite binary_round_aux_finish.
  destruct (Zdigits2_bounds q) as [Hd [Hlo Hhi]]; [lia |].
  assert (Hd54 : 54 <= Zdigits2 q) by (apply Zdigits2_ge; lia).
  destruct (shr_fexp_shift q (-53) l) as (mrs & Hshr & Hmrs);
    try (rewrite ?fexp64_eq; lia).
  rewrite Hshr. cbn [fst snd]. rewrite Hmrs.
  pose proof (round_nearest_even_bounds
                (q / 2 ^ (fexp64 (Zdigits2 q + -53) - -53))
                (loc_of_shr_record mrs)) as Hr.
  rewrite fexp64_eq in *.
  assert (Hn : Z.max (Zdigits2 q + -53 - 53) (-1074) - -53
               = Zdigits2 q - 53) by lia.
  rewrite Hn in *.
  pose proof (shifted_mantissa_large q) as Hlarge.
  destruct (Z.eq_dec (Zdigits2 q) 54) as [H54 | Hmore].
  - rewrite H54 in *. change (54 - 53) with 1 in *.
    assert (Hhalf : 2 ^ 52 + 1 <= q / 2 ^ 1).
    { apply Z.div_le_lower_bound; [reflexivity |].
      change (2 ^ 1) with 2. lia. }
    apply round_finish_gt_one; [lia |]. right.
    split; [rewrite Z.max_l by lia; lia | lia].
  - apply round_finish_gt_one; [lia |]. left. lia.
Qed.

(** *** The quotient of two positive finite doubles against 1 *)

Section Quotient.

Variables X Y dx dy ex ey : Z.
Hypothesis HX : 2 ^ (dx - 1) <= X < 2 ^ dx.
Hypothesis HY : 2 ^ (dy - 1) <= Y < 2 ^ dy.
Hypothesis Hdx : 1 <= dx <= 53.
Hypothesis Hdy : 1 <= dy <= 53.
Hypothesis Hcx : dx = 53 \/ ex = -1074.
Hypothesis Hcy : dy = 53 \/ ey = -1074.
Hypothesis Hex : -1074 <= ex.
Hypothesis Hey : -1074 <= ey.

Let E := dx + ex - (dy + ey).
Let e' := Z.min (fexp64 E) (ex - ey).
Let m' := X * 2 ^ (ex - ey - e').
Let q := m' / Y.
Let r := m' mod Y.

Lemma X_pos : 0 < X.
Proof.
  assert (0 < 2 ^ (dx - 1)) by (apply Z.pow_pos_nonneg; lia). lia.
Qed.

Lemma Y_pos : 0 < Y.
Proof.
  assert (0 < 2 ^ (dy - 1)) by (apply Z.pow_pos_nonneg; lia). lia.
Qed.

Lemma shift_nonneg : 0 <= ex - ey - e'.
Proof. unfold e'. lia. Qed.

Lemma m'_bounds :
  2 ^ (dx - 1 + (ex - ey - e')) <= m' < 2 ^ (dx + (ex - ey - e')).
Proof.
  pose proof shift_nonneg as Hs. unfold m'.
  rewrite !Z.pow_add_r by lia.
  assert (0 < 2 ^ (ex - ey - e')) by (apply Z.pow_pos_nonneg; lia).
  nia.
Qed.

Lemma quotient_eq : m' = Y * q + r /\ 0 <= r < Y.
Proof.
  pose proof Y_pos. unfold q, r. split.
  - apply Z.div_mod. lia.
  - apply Z.mod_pos_bound. lia.
Qed.

(** The order of the two doubles, read off digits and exponents. *)
Lemma order_below :
  E <= -1 -> (ex <? ey) || ((ex =? ey) && (X <=? Y)) = true.
Proof.
  intros HE. unfold E in HE.
  destruct (Z_lt_le_dec ex ey) as [Hlt | Hge].
  - apply Z.ltb_lt in Hlt. now rewrite Hlt.
  - assert (Heq : ex = ey) by lia. subst ey.
    rewrite Z.eqb_refl. cbn [andb].
    assert (2 ^ dx <= 2 ^ (dy - 1)) by (apply Z.pow_le_mono_r; lia).
    replace (X <=? Y) with true by (symmetry; apply Z.leb_le; lia).
    apply orb_true_r.
Qed.

Lemma order_above :
  1 <= E -> (ex <? ey) || ((ex =? ey) && (X <=? Y)) = false.
Proof.
  intros HE. unfold E in HE.
  destruct (Z_lt_le_dec ey ex) as [Hlt | Hge].
  - replace (ex <? ey) with false by (symmetry; apply Z.ltb_ge; lia).
    replace (ex =? ey) with false by (symmetry; apply Z.eqb_neq; lia).
    reflexivity.
  - assert (Heq : ex = ey) by lia. subst ey.
    rewrite Z.ltb_irrefl, Z.eqb_refl. cbn [andb orb].
    assert (2 ^ dy <= 2 ^ (dx - 1)) by (apply Z.pow_le_mono_r; lia).
    apply Z.leb_gt. lia.
Qed.

Lemma quotient_below :
  E <= -1 ->
  SFleb (binary_round_aux prec emax false q e' (new_location Y r)) one_at
  = (ex <? ey) || ((ex =? ey) && (X <=? Y)).
Proof.
  intros HE. rewrite (order_below HE).
  pose proof X_pos. pose proof Y_pos. pose proof shift_nonneg as Hs.
  destruct m'_bounds as [_ Hm'].
  assert (He' : e' <= -54) by (unfold e'; rewrite fexp64_eq; lia).
  apply round_le_one; [| lia].
  split.
  - apply Z.div_pos; [| lia]. unfold m'.
    assert (0 < 2 ^ (ex - ey - e')) by (apply Z.pow_pos_nonneg; lia). nia.
  - apply Z.div_lt_upper_bound; [lia |].
    apply Z.lt_le_trans with (1 := Hm').
    apply Z.le_trans with (2 ^ (dy - 1) * 2 ^ (- e')).
    + rewrite <- Z.pow_add_r by lia. apply Z.pow_le_mono_r; [lia |].
      unfold E in HE. lia.
    + assert (0 < 2 ^ (- e')) by (apply Z.pow_pos_nonneg; lia). nia.
Qed.

Lemma quotient_above_far :
  2 <= E ->
  SFleb (binary_round_aux prec emax false q e' (new_location Y r)) one_at
  = (ex <? ey) || ((ex =? ey) && (X <=? Y)).
Proof.
  intros HE. rewrite order_above by lia.
  pose proof X_pos. pose proof Y_pos. pose proof shift_nonneg as Hs.
  destruct m'_bounds as [Hm' _].
  assert (He' : -51 <= e' <= E - 53).
  { unfold e'. rewrite fexp64_eq. unfold E in *. lia. }
  apply round_gt_one_far; [| lia].
  apply Z.div_le_lower_bound; [lia |].
  apply Z.le_trans with (2 := Hm').
  apply Z.le_trans with (2 ^ dy); [lia |].
  apply Z.pow_le_mono_r; [lia |]. unfold E in *. lia.
Qed.

Lemma quotient_above_near :
  E = 1 ->
  SFleb (binary_round_aux prec emax false q e' (new_location Y r)) one_at
  = (ex <? ey) || ((ex =? ey) && (X <=? Y)).
Proof.
  intros HE. rewrite order_above by lia.
  pose proof X_pos. pose proof Y_pos. pose proof shift_nonneg as Hs.
  destruct m'_bounds as [Hm' _].
  destruct quotient_eq as [Hqr Hr].
  assert (He' : e' = -52).
  { unfold e'. rewrite fexp64_eq. unfold E in *. lia. }
  rewrite He' in *.
  assert (Hbig : 2 ^ 52 * 2 ^ dy <= m').
  { apply Z.le_trans with (2 := Hm').
    rewrite <- Z.pow_add_r by lia. apply Z.pow_le_mono_r; [lia |].
    unfold E in *. lia. }
  assert (Hp52 : 0 < 2 ^ 52) by (apply Z.pow_pos_nonneg; lia).
  assert (Hdy53 : 2 ^ dy <= 2 ^ 53) by (apply Z.pow_le_mono_r; lia).
  assert (Hp53 : 2 ^ 53 = 2 * 2 ^ 52) by reflexivity.
  assert (Hq : 2 ^ 52 <= q).
  { apply Z.div_le_lower_bound; [lia |]. nia. }
  apply round_gt_one_52; [exact Hq |].
  destruct (Z.eq_dec q (2 ^ 52)) as [Hq52 | Hne]; [right | left; lia].
  apply new_location_gt; nia.
Qed.

Lemma round_exactly_one :
  binary_round_aux prec emax false (2 ^ 53) (-53) loc_Exact
  = S754_finite false 4503599627370496 (-52).
Proof. vm_compute. reflexivity. Qed.

Lemma round_just_above_one (cmp : comparison) :
  binary_round_aux prec emax false (2 ^ 53 + 1) (-53) (loc_Inexact cmp)
  = S754_finite false 4503599627370497 (-52).
Proof. destruct cmp; vm_compute; reflexivity. Qed.

Lemma quotient_level :
  E = 0 ->
  SFleb (binary_round_aux prec emax false q e' (new_location Y r)) one_at
  = (ex <? ey) || ((ex =? ey) && (X <=? Y)).
Proof.
  intros HE.
  pose proof X_pos. pose proof Y_pos.
  destruct quotient_eq as [Hqr Hr].
  assert (Hee : ex = ey) by (unfold E in HE; lia).
  assert (Hdd : dx = dy) by (unfold E in HE; lia).
  assert (He' : e' = -53).
  { unfold e'. rewrite HE, fexp64_eq. lia. }
  assert (Hm' : m' = X * 2 ^ 53).
  { unfold m'. rewrite He'. f_equal. f_equal. lia. }
  rewrite He' in *.
  rewrite <- Hee, Z.ltb_irrefl, Z.eqb_refl. cbn [orb andb].
  assert (Hp53 : 0 < 2 ^ 53) by (apply Z.pow_pos_nonneg; lia).
  assert (Hdy53 : 2 ^ dy <= 2 ^ 53) by (apply Z.pow_le_mono_r; lia).
  destruct (Z.lt_trichotomy X Y) as [Hlt | [Heq | Hgt]].
  - replace (X <=? Y) with true by (symmetry; apply Z.leb_le; lia).
    apply round_le_one; [| lia].
    change (- -53) with 53. split.
    + apply Z.div_pos; nia.
    + apply Z.div_lt_upper_bound; nia.
  - replace (X <=? Y) with true by (symmetry; apply Z.leb_le; lia).
    assert (Hq : q = 2 ^ 53).
    { unfold q. rewrite Hm', Heq, Z.mul_comm. apply Z.div_mul. lia. }
    assert (Hr0 : r = 0) by nia.
    rewrite Hq, Hr0, new_location_zero, round_exactly_one.
    apply (finite_le_one 4503599627370496 (-52)).
    right. split; reflexivity.
  - replace (X <=? Y) with false by (symmetry; apply Z.leb_gt; lia).
    assert (Hq : 2 ^ 53 + 1 <= q).
    { apply Z.div_le_lower_bound; nia. }
    destruct (Z_le_gt_dec (2 ^ 53 + 2) q) as [Hfar | Hnear].
    + now apply round_gt_one_53.
    + assert (Hq1 : q = 2 ^ 53 + 1) by lia.
      destruct (new_location_inexact Y r) as [cmp Hl]; [nia |].
      rewrite Hq1, Hl, round_just_above_one.
      apply (finite_gt_one 4503599627370497 (-52)).
      right. split; [reflexivity |]. reflexivity.
Qed.

(** The rounded quotient is at most 1 exactly when the dividend is at most
    the divisor. *)
Lemma quotient_vs_one :
  SFleb (binary_round_aux prec emax false q e' (new_location Y r)) one_at
  = (ex <? ey) || ((ex =? ey) && (X <=? Y)).
Proof.
  destruct (Z_le_gt_dec E (-1)) as [Hlow | Hge0].
  - now apply quotient_below.
  - destruct (Z.eq_dec E 0) as [H0 | Hne0]; [now apply quotient_level |].
    destruct (Z.eq_dec E 1) as [H1 | Hne1]; [now apply quotient_above_near |].
    apply quotient_above_far. lia.
Qed.

End Quotient.

(** *** Signs *)

Definition neg_one_at : spec_float := S754_finite true c (-52).

(** A result of [binary_round_aux], with the sign it was asked for. *)
Definition with_sign (s : bool) (f : spec_float) : spec_float :=
  match f with
  | S754_zero _ => S754_zero s
  | S754_infinity _ => S754_infinity s
  | S754_nan => S754_nan
  | S754_finite _ m e => S754_finite s m e
  end.

Definition unsigned_result (f : spec_float) : Prop :=
  match f with
  | S754_zero s | S754_infinity s | S754_finite s _ _ => s = false
  | S754_nan => True
  end.

Lemma binary_round_aux_sign (s : bool) (q e : Z) (l : location) :
  binary_round_aux prec emax s q e l
  = with_sign s (binary_round_aux prec emax false q e l)
  /\ unsigned_result (binary_round_aux prec emax false q e l).
Proof.
  unfold binary_round_aux.
  destruct (shr_fexp prec emax q e l) as [mrs1 e1].
  destruct (shr_fexp prec emax _ e1 loc_Exact) as [mrs2 e2].
  destruct (shr_m mrs2) as [| p | p];
    [split; reflexivity | | split; reflexivity].
  destruct (e2 <=? emax - prec); split; reflexivity.
Qed.

(** Between -1 and 1, whatever the sign, exactly when the magnitude is at
    most 1. *)
Lemma signed_within_one (s : bool) (f : spec_float) :
  unsigned_result f ->
  SFleb neg_one_at (with_sign s f) && SFleb (with_sign s f) one_at
  = SFleb f one_at.
Proof.
  destruct f as [s0 | s0 | | s0 m e]; cbn [unsigned_result]; intros Hs;
    try subst s0; destruct s; try reflexivity.
  unfold SFleb, SFcompare, neg_one_at, one_at, with_sign.
  rewrite !compare_cont_Z.
  rewrite (Z.compare_antisym e (-52)).
  destruct (e ?= -52); cbn [CompOpp andb]; try reflexivity.
  rewrite (Z.compare_antisym (Z.pos m) (Z.pos c)).
  destruct (Z.pos m ?= Z.pos c); reflexivity.
Qed.

(** Dividing any double by a positive finite one. *)
Lemma SFdiv_within_one (x : spec_float) (my : positive) (ey : Z) :
  SpecFloat.valid_binary prec emax x = true ->
  bounded prec emax my ey = true ->
  SFleb neg_one_at (SFdiv prec emax x (S754_finite false my ey))
  && SFleb (SFdiv prec emax x (S754_finite false my ey)) one_at
  = SFleb (SFabs x) (S754_finite false my ey).
Proof.
  intros Hx Hy.
  destruct x as [sx | sx | | sx mx ex].
  - destruct sx; reflexivity.
  - destruct sx; reflexivity.
  - reflexivity.
  - cbn [SpecFloat.valid_binary] in Hx. cbn [SFdiv SFabs].
    rewrite SFdiv_core_binary_eq. cbv zeta.
    destruct (binary_round_aux_sign (xorb sx false)
                (Z.pos mx * 2 ^ (ex - ey
                   - Z.min (fexp64 (Zdigits2 (Z.pos mx) + ex
                                    - (Zdigits2 (Z.pos my) + ey)))
                       (ex - ey)) / Z.pos my)
                (Z.min (fexp64 (Zdigits2 (Z.pos mx) + ex
                                - (Zdigits2 (Z.pos my) + ey))) (ex - ey))
                (new_location (Z.pos my)
                   ((Z.pos mx * 2 ^ (ex - ey
                       - Z.min (fexp64 (Zdigits2 (Z.pos mx) + ex
                                        - (Zdigits2 (Z.pos my) + ey)))
                           (ex - ey))) mod Z.pos my)))
      as [-> Hunsigned].
    rewrite (signed_within_one _ _ Hunsigned).
    rewrite finite_leb.
    destruct (bounded_canonical mx ex Hx) as [Hcx Hex].
    destruct (bounded_canonical my ey Hy) as [Hcy Hey].
    rewrite fexp64_eq in Hcx, Hcy.
    destruct (Zdigits2_bounds (Z.pos mx)) as [Hdx HX]; [lia |].
    destruct (Zdigits2_bounds (Z.pos my)) as [Hdy HY]; [lia |].
    apply quotient_vs_one; try assumption; lia.
Qed.

End RoundingAroundOne.

(** *** Primitive doubles *)

Lemma Prim2SF_one : Prim2SF 1 = S754_finite false 4503599627370496 (-52).
Proof. vm_compute. reflexivity. Qed.

Lemma Prim2SF_neg_one :
  Prim2SF (-1) = S754_finite true 4503599627370496 (-52).
Proof. vm_compute. reflexivity. Qed.

Lemma Prim2SF_zero : Prim2SF 0 = S754_zero false.
Proof. vm_compute. reflexivity. Qed.

Lemma Prim2SF_infinity : Prim2SF infinity = S754_infinity false.
Proof. vm_compute. reflexivity. Qed.

(** A double strictly between 0 and infinity is a valid positive finite
    one. *)
Lemma positive_finite_shape (h : float) :
  (0 <? h)%float = true -> (h <? infinity)%float = true ->
  exists m e, Prim2SF h = S754_finite false m e
              /\ bounded prec emax m e = true.
Proof.
  rewrite !ltb_spec, Prim2SF_zero, Prim2SF_infinity.
  pose proof (Prim2SF_valid h) as Hvalid.
  destruct (Prim2SF h) as [s | s | | s m e]; try discriminate.
  - destruct s; discriminate.
  - destruct s; [discriminate |]. intros _ _. now exists m, e.
Qed.

(** On doubles: for a positive finite [h], the quotient [x / h] is between
    -1 and 1 exactly when [|x| <= h], for every [x] (zeros, infinities and
    NaN included). *)
Theorem quotient_within_one (x h : float) :
  (0 <? h)%float = true -> (h <? infinity)%float = true ->
  ((-1 <=? x / h) && (x / h <=? 1))%float = (abs x <=? h)%float.
Proof.
  intros Hpos Hfin.
  destruct (positive_finite_shape h Hpos Hfin) as (my & ey & Hh & Hy).
  rewrite !leb_spec, div_spec, abs_spec, Prim2SF_one, Prim2SF_neg_one, Hh.
  apply (SFdiv_within_one 4503599627370496 eq_refl).
  - apply Prim2SF_valid.
  - exact Hy.
Qed.

End Binary64.

(** *** The containment test on doubles *)

Lemma float_lit_values :
  float_lit (-1) = (-1)%float /\ float_lit 0 = 0%float
  /\ float_lit 1 = 1%float /\ float_lit 2 = 2%float.
Proof. vm_compute. repeat split. Qed.

(** With positive finite half-extents, the containment test on doubles is
    the comparison of magnitudes with the half-extents. *)
Lemma in_area_float_iff (this : CoordinateConverter float) (p : XY float) :
  let size := projectionAreaSize (options this) in
  positive_finite (fst size / lit 2)%num = true ->
  positive_finite (snd size / lit 2)%num = true ->
  (in_area this p = true <->
   (num_abs (fst p) <=? fst size / lit 2)%num = true
   /\ (num_abs (snd p) <=? snd size / lit 2)%num = true).
Proof.
  intros size Hw Hh. unfold positive_finite in Hw, Hh.
  apply andb_true_iff in Hw as [Hw0 Hwi].
  apply andb_true_iff in Hh as [Hh0 Hhi].
  unfold in_area.
  cbv beta iota zeta delta [bind normalize inProjectionArea field ret].
  fold size. cbn [fst snd].
  cbn [lit num_leb num_ltb num_div num_abs float_Number] in *.
  destruct float_lit_values as (Hm1 & H0 & H1 & H2).
  rewrite ?Hm1, ?H0, ?H1, ?H2 in *.
  rewrite <- andb_assoc.
  rewrite (Binary64.quotient_within_one (fst p) _ Hw0 Hwi).
  rewrite (Binary64.quotient_within_one (snd p) _ Hh0 Hhi).
  apply andb_true_iff.
Qed.

(** ** The object as a whole *)

(** Two doubles with different bit patterns are different. *)
Ltac float_discriminate H :=
  apply (f_equal Prim2SF) in H; vm_compute in H; discriminate H.


(** C2 as worded fails: a [Last] point inside the area leaves the
    last-processed point untouched. *)
Lemma last_in_area_is_not_recorded :
  ~ bunch_records_its_argument fresh_2x2 (0, 0)%float Last.
Proof.
  unfold bunch_records_its_argument. intros Hc.
  apply (f_equal fst) in Hc. float_discriminate Hc.
Qed.

(** C7, amended.  A fresh object holds the pair
    [[Number.MAX_SAFE_INTEGER, Number.MAX_SAFE_INTEGER]] (9007199254740991 on
    both axes) as its last-processed point, next to an empty buffer. *)
Theorem fresh_prevCoord_is_MAX_SAFE_INTEGER :
  (forall (num : Type) (N : Number num) (Math : MathObject num)
          (opts : CoordinateConverterOptions num),
      prevCoord (new_CoordinateConverter Math opts)
      = (MAX_SAFE_INTEGER, MAX_SAFE_INTEGER)
      /\ bunchBuffer (new_CoordinateConverter Math opts) = [])
  /\ @MAX_SAFE_INTEGER float _ = 9007199254740991%float
  /\ @MAX_SAFE_INTEGER Q _ = inject_Z 9007199254740991.
Proof.
  split; [| split].
  - intros num N Math opts. split; reflexivity.
  - vm_compute. reflexivity.
  - reflexivity.
Qed.

(** C7 as worded fails: the fresh object's last-processed point is the
    numeric constant itself. *)
Lemma fresh_lastProcessed_is_a_number :
  ~ fresh_lastProcessed_is_none Math64
      (options_with (2%float, 2%float) None).
Proof.
  intros [Hnone Hmagic].
  apply Hmagic. reflexivity.
Qed.

(** C8, amended.  On doubles, for every configuration whose half-width
    and half-height ([projectionAreaSize[i] / 2]) are positive and finite,
    and every point [p] (infinities and NaN included),
    [inProjectionArea(normalize(p))] holds exactly when [|p.x| <= width/2]
    and [|p.y| <= height/2].  In exact arithmetic the same holds for every
    positive width and height. *)
Theorem in_area_within_half_extents :
  (forall (this : CoordinateConverter float) (p : XY float),
      let size := projectionAreaSize (options this) in
      positive_finite (fst size / lit 2)%num = true ->
      positive_finite (snd size / lit 2)%num = true ->
      (in_area this p = true <->
       (num_abs (fst p) <=? fst size / lit 2)%num = true
       /\ (num_abs (snd p) <=? snd size / lit 2)%num = true))
  /\ (forall (this : CoordinateConverter Q) (p : XY Q),
         in_area_iff_within_half_extents this p).
Proof.
  split.
  - apply in_area_float_iff.
  - apply in_area_half_extents_Q.
Qed.

(** C8 as worded fails on doubles: half of the smallest positive width is
    0, so the centre of the area is divided 0/0; and on an infinitely wide
    area an infinitely distant point is divided inf/inf. *)
Lemma in_area_half_extents_fails_on_doubles :
  ~ in_area_iff_within_half_extents fresh_min (0%float, 0%float)
  /\ ~ in_area_iff_within_half_extents fresh_inf (infinity, 0%float).
Proof.
  split; intros Hc; unfold in_area_iff_within_half_extents in Hc.
  - assert (Hin : in_area fresh_min (0%float, 0%float) = false)
      by (vm_compute; reflexivity).
    rewrite Hin in Hc.
    specialize (Hc ltac:(vm_compute; reflexivity)
                  ltac:(vm_compute; reflexivity)).
    destruct Hc as [_ Hc].
    assert (Hf : false = true) by (apply Hc; split; vm_compute; reflexivity).
    discriminate Hf.
  - assert (Hin : in_area fresh_inf (infinity, 0%float) = false)
      by (vm_compute; reflexivity).
    rewrite Hin in Hc.
    specialize (Hc ltac:(vm_compute; reflexivity)
                  ltac:(vm_compute; reflexivity)).
    destruct Hc as [_ Hc].
    assert (Hf : false = true) by (apply Hc; split; vm_compute; reflexivity).
    discriminate Hf.
Qed.

(** C9.  [convert] and [normalize] leave the object as it is, and what they
    return is the same before and after any sequence of [bunch] calls; the
    result of [bunch], in contrast, depends on the calls made before. *)
Theorem convert_and_normalize_are_pure :
  (forall (num : Type) (N : Number num) (Math : MathObject num)
          (this : CoordinateConverter num)
          (calls : list (XY num * DataPlace))
          (distance dataIndex datasLength : num) (coord : XY num),
      snd (convert Math distance dataIndex datasLength this) = this
      /\ snd (normalize coord this) = this
      /\ fst (convert Math distance dataIndex datasLength
                (snd (run calls this)))
         = fst (convert Math distance dataIndex datasLength this)
      /\ fst (normalize coord (snd (run calls this)))
         = fst (normalize coord this))
  /\ (exists (this : CoordinateConverter float)
             (calls : list (XY float * DataPlace))
             (coord : XY float) (dataPlace : DataPlace),
         fst (bunch coord dataPlace (snd (run calls this)))
         <> fst (bunch coord dataPlace this)).
Proof.
  split.
  - intros num N Math this calls distance dataIndex datasLength coord.
    repeat split.
    + apply convert_same_readonly, run_same_readonly.
    + apply normalize_same_readonly, run_same_readonly.
  - exists fresh_2x2.
    exists [((0, 0), First); ((0, 0), Middle); ((0, 0), Middle)]%float.
    exists (0%float, 0%float), Last.
    vm_compute. discriminate.
Qed.

(** C10, amended.  Along any run from a fresh object, every buffered point
    lies in the projection area and every centroid returned is the per-axis
    mean of a non-empty list of points of the area; in exact arithmetic such
    a centroid lies in the area itself. *)
Theorem centroids_average_points_of_the_area :
  (forall (num : Type) (N : Number num) (Math : MathObject num)
          (opts : CoordinateConverterOptions num)
          (calls : list (XY num * DataPlace)),
      let this := new_CoordinateConverter Math opts in
      Forall (fun p => in_area this p = true)
        (bunchBuffer (snd (run calls this)))
      /\ forall c, In (Some c) (fst (run calls this)) ->
           exists pts, pts <> []
                       /\ Forall (fun p => in_area this p = true) pts
                       /\ c = centroid pts)
  /\ (forall (Math : MathObject Q) (opts : CoordinateConverterOptions Q)
             (calls : list (XY Q * DataPlace)),
         centroids_lie_in_area Math opts calls).
Proof.
  split.
  - intros num N Math opts calls this.
    apply run_invariant; [apply same_readonly_refl | constructor].
  - intros Math opts calls. unfold centroids_lie_in_area. cbn zeta.
    intros _ _ c Hc.
    destruct (run_invariant (new_CoordinateConverter Math opts) calls
                (new_CoordinateConverter Math opts)
                (same_readonly_refl _) (Forall_nil _)) as [_ Hout].
    destruct (Hout c Hc) as (pts & Hne & Hall & ->).
    now apply centroid_in_area_Q.
Qed.

(** C10 as worded fails on doubles: three samples at x = 0.1, on the edge
    of an area 0.2 wide, add up to 0.30000000000000004, and their mean
    0.10000000000000002 is outside. *)
Lemma edge_centroid_leaves_area :
  ~ centroids_lie_in_area Math64 (options_with (d0_2, d0_2) None) edge_sweep.
Proof.
  intros Hc. unfold centroids_lie_in_area in Hc. cbn zeta in Hc.
  assert (Hrun : fst (run edge_sweep fresh_02)
                 = [None; None; None;
                    Some (0x1.999999999999bp-4%float, 0%float)])
    by (vm_compute; reflexivity).
  change (new_CoordinateConverter Math64 (options_with (d0_2, d0_2) None))
    with fresh_02 in Hc.
  rewrite Hrun in Hc.
  specialize (Hc ltac:(vm_compute; reflexivity) ltac:(vm_compute; reflexivity)
                (0x1.999999999999bp-4%float, 0%float)
                ltac:(do 3 right; left; reflexivity)).
  vm_compute in Hc. discriminate Hc.
Qed.

(** ** Concrete runs *)

(** Which sizes have a positive finite half: not the smallest double, whose
    half rounds to 0, nor infinity; every size in between, from twice the
    smallest double up to the largest one. *)
Example positive_finite_halves :
  positive_finite (MIN_VALUE / 2) = false
  /\ positive_finite (infinity / 2) = false
  /\ positive_finite (0x1p-1073 / 2) = true
  /\ positive_finite (2 / 2) = true
  /\ positive_finite (0x1.fffffffffffffp+1023 / 2) = true.
Proof. vm_compute. repeat split. Qed.

Example three_at_origin_state :
  bunchBuffer three_at_origin = [(0, 0); (0, 0); (0, 0)]%float
  /\ prevCoord three_at_origin = (0, 0)%float.
Proof. vm_compute. split; reflexivity. Qed.

Example gap_flushes_three_at_origin :
  bunch (0.5, 0)%float Middle three_at_origin
  = (Some (0, 0)%float,
     with_prevCoord (0.5, 0)%float
       (with_bunchBuffer [(0.5, 0)%float] three_at_origin)).
Proof. vm_compute. reflexivity. Qed.

Example default_bunchEps_is_0_05 :
  bunchEps fresh_2x2 = 0x1.999999999999ap-5%float.
Proof. vm_compute. reflexivity. Qed.


(** A [Middle] point half a metre away from three samples at the origin. *)
Lemma middle_gap_witness :
  in_area three_at_origin (0.5, 0)%float = true
  /\ (let gap := nonempty (bunchBuffer three_at_origin)
                 && exceeds (bunchEps three_at_origin)
                      (prevCoord three_at_origin) (0.5, 0)%float in
      fst (bunch (0.5, 0)%float Middle three_at_origin)
      = (if gap then fst (calcBunchAvarage three_at_origin) else None)
      /\ fst (calcBunchAvarage three_at_origin)
         = flush_rule (bunchPrecisionCount three_at_origin)
             (bunchBuffer three_at_origin)
      /\ bunchBuffer (snd (bunch (0.5, 0)%float Middle three_at_origin))
         = (if gap then [(0.5, 0)%float]
            else bunchBuffer three_at_origin ++ [(0.5, 0)%float])).
Proof.
  split.
  - vm_compute. reflexivity.
  - apply (middle_in_area_flushes_on_gap three_at_origin (0.5, 0)%float).
    vm_compute. reflexivity.
Defined.

(** A [Last] point five metres off the 2 m by 2 m area, after three samples
    at the origin. *)
Lemma outside_point_witness :
  in_area three_at_origin (5, 5)%float = false
  /\ fst (bunch (5, 5)%float Last three_at_origin)
     = (if nonempty (bunchBuffer three_at_origin)
        then fst (calcBunchAvarage three_at_origin)
        else None)
  /\ fst (calcBunchAvarage three_at_origin)
     = flush_rule (bunchPrecisionCount three_at_origin)
         (bunchBuffer three_at_origin)
  /\ flush_rule (bunchPrecisionCount three_at_origin)
       (bunchBuffer three_at_origin)
     = (if (bunchPrecisionCount three_at_origin
            <=? length_num (bunchBuffer three_at_origin))%num
        then Some (mean (map fst (bunchBuffer three_at_origin)),
                   mean (map snd (bunchBuffer three_at_origin)))
        else None)
  /\ bunchBuffer (snd (bunch (5, 5)%float Last three_at_origin)) = []
  /\ ~ In (5, 5)%float
         (bunchBuffer (snd (bunch (5, 5)%float Last three_at_origin))).
Proof.
  split.
  - vm_compute. reflexivity.
  - apply (outside_point_flushes three_at_origin (5, 5)%float Last).
    vm_compute. reflexivity.
Defined.

(** A [First] point arriving on three buffered samples. *)
Lemma first_in_area_witness :
  in_area three_at_origin (0.5, 0.25)%float = true
  /\ fst (bunch (0.5, 0.25)%float First three_at_origin) = None
  /\ bunchBuffer (snd (bunch (0.5, 0.25)%float First three_at_origin))
     = [(0.5, 0.25)%float]
  /\ prevCoord (snd (bunch (0.5, 0.25)%float First three_at_origin))
     = (0.5, 0.25)%float.
Proof.
  split.
  - vm_compute. reflexivity.
  - apply (first_in_area_restarts_buffer three_at_origin (0.5, 0.25)%float).
    vm_compute. reflexivity.
Defined.

(** A point on the right edge of the 2 m by 2 m area on doubles, and one on
    the lower edge of the 2 by 2 area over the rationals. *)
Lemma in_area_half_extents_witness :
  (in_area fresh_2x2 (1, -0.5)%float = true
   <-> (num_abs 1%float <=? 2%float / lit 2)%num = true
       /\ (num_abs (-0.5)%float <=? 2%float / lit 2)%num = true)
  /\ (in_area fresh_Q (1 # 2, - 1 # 1)%Q = true
      <-> (Qle_bool (Qabs (1 # 2)) ((2 # 1) / inject_Z 2) = true
           /\ Qle_bool (Qabs (- 1 # 1)) ((2 # 1) / inject_Z 2) = true)).
Proof.
  split.
  - apply (proj1 in_area_within_half_extents fresh_2x2 (1, -0.5)%float);
      vm_compute; reflexivity.
  - pose proof (proj2 in_area_within_half_extents
                  fresh_Q (1 # 2, - 1 # 1)%Q) as Hw.
    unfold in_area_iff_within_half_extents in Hw.
    apply Hw; reflexivity.
Defined.

(** The edge sweep, on doubles and over the rationals. *)
Lemma edge_sweep_witness :
  (exists pts : list (XY float),
      pts <> []
      /\ Forall (fun p => in_area fresh_02 p = true) pts
      /\ (0x1.999999999999bp-4, 0)%float = centroid pts)
  /\ in_area fresh_Q (3 # 3, 0 # 3)%Q = true.
Proof.
  split.
  - apply (proj2 (proj1 centroids_average_points_of_the_area
                    float _ Math64 (options_with (d0_2, d0_2) None)
                    edge_sweep)).
    vm_compute. do 3 right. left. reflexivity.
  - pose proof (proj2 centroids_average_points_of_the_area
                  MathQ options_Q edge_sweep_Q) as Hw.
    unfold centroids_lie_in_area in Hw.
    apply Hw; [reflexivity | reflexivity |].
    vm_compute. do 3 right. left. reflexivity.
Defined.

(** * Further properties of the clusterer *)

Section ClustererAlongRuns.

Context {num : Type} `{Number num}.

Local Open Scope num_scope.

Implicit Types (this : CoordinateConverter num) (coord : XY num).

Lemma no_gap_snoc (eps : num) (buf : list (XY num)) (d q : XY num) :
  no_gap eps buf = true ->
  (buf <> [] -> exceeds eps (last buf d) q = false) ->
  no_gap eps (buf ++ [q]) = true.
Proof.
  induction buf as [| p buf IH]; intros Hgap Hlast; [reflexivity |].
  destruct buf as [| p' buf].
  - pose proof (Hlast ltac:(discriminate)) as Hl.
    change (last [p] d) with p in Hl.
    cbn [app no_gap]. rewrite Hl. reflexivity.
  - change (no_gap eps (p :: p' :: buf) = true)
      with (negb (exceeds eps p p') && no_gap eps (p' :: buf) = true) in Hgap.
    apply andb_true_iff in Hgap as [Hpp' Hrest].
    change (negb (exceeds eps p p') && no_gap eps ((p' :: buf) ++ [q]) = true).
    rewrite Hpp'. cbn [andb]. apply IH; [exact Hrest |].
    intros _. apply Hlast. discriminate.
Qed.

Lemma last_snoc {A : Type} (l : list A) (x d : A) : last (l ++ [x]) d = x.
Proof.
  induction l as [| y l IH]; [reflexivity |].
  cbn [app]. destruct (l ++ [x]) eqn:Hl.
  - now destruct l.
  - exact IH.
Qed.

(** One call keeps the buffer a chain whose end is the last-processed
    point. *)
Lemma bunch_chain this coord dataPlace :
  no_gap (bunchEps this) (bunchBuffer this) = true ->
  last (bunchBuffer this) (prevCoord this) = prevCoord this ->
  let this' := snd (bunch coord dataPlace this) in
  no_gap (bunchEps this') (bunchBuffer this') = true
  /\ last (bunchBuffer this') (prevCoord this') = prevCoord this'.
Proof.
  intros Hgap Hlast.
  destruct (in_area this coord) eqn:Hin.
  - destruct dataPlace.
    + rewrite bunch_first by assumption. split; reflexivity.
    + rewrite bunch_last by assumption. split; reflexivity.
    + rewrite bunch_middle by assumption. cbn zeta. cbn [snd].
      destruct (nonempty (bunchBuffer this)) eqn:Hne; cbn [andb].
      * destruct (exceeds (bunchEps this) (prevCoord this) coord) eqn:Hex.
        -- split; reflexivity.
        -- split.
           ++ apply (no_gap_snoc _ _ (prevCoord this)); [exact Hgap |].
              intros _. change (bunchEps _) with (bunchEps this).
              now rewrite Hlast.
           ++ apply last_snoc.
      * apply nonempty_false in Hne. rewrite Hne. split; reflexivity.
  - rewrite bunch_outside by assumption. split; reflexivity.
Qed.

Lemma run_chain calls this :
  no_gap (bunchEps this) (bunchBuffer this) = true ->
  last (bunchBuffer this) (prevCoord this) = prevCoord this ->
  let this' := snd (run calls this) in
  no_gap (bunchEps this') (bunchBuffer this') = true
  /\ last (bunchBuffer this') (prevCoord this') = prevCoord this'.
Proof.
  revert this.
  induction calls as [| [coord dataPlace] calls IH]; intros this Hgap Hlast.
  - split; assumption.
  - rewrite run_cons. cbn [snd].
    destruct (bunch_chain this coord dataPlace Hgap Hlast) as [Hgap1 Hlast1].
    now apply IH.
Qed.

(** X1.  After any sequence of calls on a fresh object, a buffer that holds
    points ends with the last-processed point: a [Middle] point is always
    compared with its predecessor in the cluster. *)
Theorem prevCoord_is_last_buffered (Math : MathObject num)
  (opts : CoordinateConverterOptions num) calls :
  let this := snd (run calls (new_CoordinateConverter Math opts)) in
  last (bunchBuffer this) (prevCoord this) = prevCoord this.
Proof.
  apply run_chain; reflexivity.
Qed.

(** X2.  After any sequence of calls on a fresh object, no two neighbouring
    points of the buffer are more than [bunchEps] apart on an axis. *)
Theorem buffer_has_no_gap (Math : MathObject num)
  (opts : CoordinateConverterOptions num) calls :
  let this := snd (run calls (new_CoordinateConverter Math opts)) in
  no_gap (bunchEps this) (bunchBuffer this) = true.
Proof.
  apply run_chain; reflexivity.
Qed.

(** The end of a sweep, on a buffer under way. *)
Lemma run_last this pl :
  nonempty (bunchBuffer this) = true ->
  run [(pl, Last)] this
  = ([flush_rule (bunchPrecisionCount this) (bunchBuffer this)],
     snd (bunch pl Last this))
  /\ bunchBuffer (snd (bunch pl Last this)) = [].
Proof.
  intros Hne. rewrite run_cons. cbn [run ret fst snd].
  destruct (in_area this pl) eqn:Hpl.
  - rewrite (bunch_last this pl Hpl), Hne. split; reflexivity.
  - rewrite (bunch_outside this pl Last Hpl), Hne. split; reflexivity.
Qed.

(** X3.  A sweep of any length whose first and middle points lie in the area,
    each within [bunchEps] of its predecessor, returns none at every call
    but the last, and at the last call the flush of the first and middle
    points; the last point itself, wherever it lies, is not averaged, and
    the buffer is empty afterwards. *)
Theorem sweep_emits_at_its_last_call this p1 mids pl :
  in_area this p1 = true ->
  forallb (in_area this) mids = true ->
  chain_below (bunchEps this) p1 mids = true ->
  let out := run (sweep p1 mids pl) this in
  fst out
  = None :: map (fun _ => None) mids
      ++ [flush_rule (bunchPrecisionCount this) (p1 :: mids)]
  /\ bunchBuffer (snd out) = [].
Proof.
  intros Hp1 Hmid Hchain. unfold sweep.
  rewrite run_cons, (bunch_first this p1 Hp1). cbn [fst snd].
  rewrite run_app, run_middle_chain
    by first [reflexivity | exact Hmid | exact Hchain].
  cbn [fst snd].
  set (this1 := with_prevCoord _ (with_bunchBuffer _ _)).
  destruct (run_last this1 pl) as [-> Hbuf]; [reflexivity |].
  split; [reflexivity | exact Hbuf].
Qed.

(** X4.  A sweep with one gap is reported as two clusters: when a [Middle]
    point [q] is more than [bunchEps] from its predecessor, the call with
    [q] returns the flush of the points before it, and the [Last] call the
    flush of [q] and the points after it. *)
Theorem sweep_splits_at_a_gap this p1 pts1 q pts2 pl :
  forallb (in_area this) (p1 :: pts1 ++ q :: pts2) = true ->
  chain_below (bunchEps this) p1 pts1 = true ->
  exceeds (bunchEps this) (last pts1 p1) q = true ->
  chain_below (bunchEps this) q pts2 = true ->
  fst (run (sweep_with_gap p1 pts1 q pts2 pl) this)
  = None :: map (fun _ => None) pts1
      ++ flush_rule (bunchPrecisionCount this) (p1 :: pts1)
      :: map (fun _ => None) pts2
      ++ [flush_rule (bunchPrecisionCount this) (q :: pts2)].
Proof.
  intros Hin Hchain1 Hgap Hchain2.
  cbn [forallb] in Hin. rewrite forallb_app in Hin. cbn [forallb] in Hin.
  rewrite !andb_true_iff in Hin.
  destruct Hin as (Hp1 & Hpts1 & Hq & Hpts2).
  unfold sweep_with_gap.
  rewrite run_cons, (bunch_first this p1 Hp1). cbn [fst snd].
  rewrite run_app, run_middle_chain
    by first [reflexivity | exact Hpts1 | exact Hchain1].
  cbn [fst snd]. f_equal. f_equal.
  set (this1 := with_prevCoord _ (with_bunchBuffer _ _)).
  rewrite run_cons, (bunch_middle this1 q Hq). cbn zeta.
  change (bunchBuffer this1) with (p1 :: pts1).
  change (prevCoord this1) with (last pts1 p1).
  change (bunchEps this1) with (bunchEps this).
  change (bunchPrecisionCount this1) with (bunchPrecisionCount this).
  rewrite Hgap. cbn [nonempty length Nat.ltb Nat.leb andb fst snd].
  f_equal.
  rewrite run_app, run_middle_chain
    by first [reflexivity | exact Hpts2 | exact Hchain2].
  cbn [fst snd]. f_equal.
  set (this2 := with_prevCoord _ (with_bunchBuffer _ _)).
  now destruct (run_last this2 pl) as [-> _].
Qed.

Lemma closes_result this coord dataPlace :
  closes this coord dataPlace = true ->
  fst (bunch coord dataPlace this)
  = (if nonempty (bunchBuffer this)
     then flush_rule (bunchPrecisionCount this) (bunchBuffer this)
     else None)
  /\ bunchBuffer (snd (bunch coord dataPlace this)) = []
  /\ same_readonly this (snd (bunch coord dataPlace this)).
Proof.
  unfold closes. intros Hc.
  destruct (in_area this coord) eqn:Hin.
  - destruct dataPlace; try discriminate Hc.
    rewrite (bunch_last this coord Hin). repeat split.
  - rewrite (bunch_outside this coord dataPlace Hin). repeat split.
Qed.

(** X5.  A cluster is reported once: of two consecutive calls that each end
    a cluster (a point outside the area, or a [Last] point), the second
    returns none. *)
Theorem cluster_is_reported_once this coord1 dataPlace1 coord2 dataPlace2 :
  closes this coord1 dataPlace1 = true ->
  closes this coord2 dataPlace2 = true ->
  fst (bunch coord2 dataPlace2 (snd (bunch coord1 dataPlace1 this))) = None.
Proof.
  intros H1 H2.
  destruct (closes_result this coord1 dataPlace1 H1) as (_ & Hbuf & Hro).
  assert (H2' : closes (snd (bunch coord1 dataPlace1 this)) coord2 dataPlace2
                = true).
  { unfold closes in *. now rewrite (in_area_same_readonly _ _ _ Hro). }
  destruct (closes_result _ coord2 dataPlace2 H2') as (-> & _).
  now rewrite Hbuf.
Qed.

(** X6.  No call reports a cluster of fewer than [bunchPrecisionCount]
    points: when [bunch] returns a point, the buffer it started from was not
    empty and passed the precision test, and the point is its centroid. *)
Theorem centroid_needs_precision this coord dataPlace (c : XY num) :
  fst (bunch coord dataPlace this) = Some c ->
  (bunchPrecisionCount this <=? length_num (bunchBuffer this)) = true
  /\ bunchBuffer this <> []
  /\ c = centroid (bunchBuffer this).
Proof.
  assert (Hflush : flush_rule (bunchPrecisionCount this) (bunchBuffer this)
                   = Some c ->
                   (bunchPrecisionCount this <=? length_num (bunchBuffer this))
                   = true /\ c = centroid (bunchBuffer this)).
  { unfold flush_rule.
    destruct (bunchPrecisionCount this <=? length_num (bunchBuffer this));
      [| discriminate].
    intros [= <-]. now split. }
  assert (Hcase : (if nonempty (bunchBuffer this)
                   then flush_rule (bunchPrecisionCount this) (bunchBuffer this)
                   else None) = Some c ->
                  (bunchPrecisionCount this <=? length_num (bunchBuffer this))
                  = true
                  /\ bunchBuffer this <> []
                  /\ c = centroid (bunchBuffer this)).
  { destruct (nonempty (bunchBuffer this)) eqn:Hne; [| discriminate].
    intros Hc. destruct (Hflush Hc). repeat split; try assumption.
    now apply nonempty_true. }
  destruct (in_area this coord) eqn:Hin.
  - destruct dataPlace.
    + rewrite bunch_first by assumption. discriminate.
    + rewrite bunch_last by assumption. exact Hcase.
    + rewrite bunch_middle by assumption. cbn zeta. cbn [fst].
      destruct (nonempty (bunchBuffer this)) eqn:Hne; cbn [andb];
        [| discriminate].
      destruct (exceeds _ _ _); [| discriminate].
      intros Hc. destruct (Hflush Hc). repeat split; try assumption.
      now apply nonempty_true.
  - rewrite bunch_outside by assumption. exact Hcase.
Qed.

(** X7.  While the buffer is empty the last-processed point is dead: putting
    any other point in its place changes no result of any later call. *)
Theorem prevCoord_is_unread_while_buffer_is_empty this (p : XY num) calls :
  bunchBuffer this = [] ->
  fst (run calls (with_prevCoord p this)) = fst (run calls this).
Proof.
  intros Hbuf. apply run_same_cluster. repeat split. now left.
Qed.

Lemma in_area_size this this' coord :
  projectionAreaSize (options this') = projectionAreaSize (options this) ->
  in_area this' coord = in_area this coord.
Proof.
  intros Hsize.
  cbv beta iota zeta delta
    [in_area bind normalize inProjectionArea field ret fst snd].
  now rewrite Hsize.
Qed.

Lemma bunch_same_clustering this this' coord dataPlace :
  same_clustering this this' ->
  fst (bunch coord dataPlace this') = fst (bunch coord dataPlace this)
  /\ same_clustering (snd (bunch coord dataPlace this))
       (snd (bunch coord dataPlace this')).
Proof.
  intros (Hsize & Heps & Hcount & Hbuf & Hprev).
  pose proof (in_area_size this this' coord Hsize) as Harea.
  destruct (in_area this coord) eqn:Hin.
  - destruct dataPlace.
    + rewrite !bunch_first by assumption.
      repeat split; try assumption. now right.
    + rewrite !bunch_last by assumption. cbn [fst snd].
      rewrite Hbuf, Hcount. repeat split; try assumption. now left.
    + rewrite !bunch_middle by assumption. cbn zeta. cbn [fst snd].
      rewrite Hbuf, Hcount, Heps.
      assert (Hgap : nonempty (bunchBuffer this)
                     && exceeds (bunchEps this) (prevCoord this') coord
                     = nonempty (bunchBuffer this)
                       && exceeds (bunchEps this) (prevCoord this) coord).
      { destruct Hprev as [-> | ->]; reflexivity. }
      rewrite Hgap. repeat split; try assumption. now right.
  - rewrite !bunch_outside by assumption. cbn [fst snd].
    rewrite Hbuf, Hcount. repeat split; try assumption. now left.
Qed.

Lemma run_same_clustering calls this this' :
  same_clustering this this' -> fst (run calls this') = fst (run calls this).
Proof.
  revert this this'.
  induction calls as [| [coord dataPlace] calls IH]; intros this this' Hsame.
  - reflexivity.
  - rewrite !run_cons. cbn [fst].
    destruct (bunch_same_clustering this this' coord dataPlace Hsame)
      as [-> Hnext].
    f_equal. now apply IH.
Qed.

(** X8.  Clustering does not look at the sensor: two fresh objects with the
    same [projectionAreaSize], [bunchEps] and [bunchPrecisionCount] return
    the same results on every sequence of calls, whatever their placement,
    their offset, their other options and their sine and cosine. *)
Theorem clustering_ignores_the_sensor (Math Math' : MathObject num)
  (opts opts' : CoordinateConverterOptions num) calls :
  projectionAreaSize opts' = projectionAreaSize opts ->
  opt_bunchEps opts' = opt_bunchEps opts ->
  opt_bunchPrecisionCount opts' = opt_bunchPrecisionCount opts ->
  fst (run calls (new_CoordinateConverter Math' opts'))
  = fst (run calls (new_CoordinateConverter Math opts)).
Proof.
  intros Hsize Heps Hcount. apply run_same_clustering.
  unfold same_clustering. cbn.
  rewrite Heps, Hcount. repeat split; try assumption. now left.
Qed.

(** X9.  The [normalize] and [bunch] options are stored and never read:
    whatever they are set to, [convert], [normalize] and every sequence of
    [bunch] calls return the same results. *)
Theorem flags_change_no_result (Math : MathObject num)
  (opts : CoordinateConverterOptions num) (flag1 flag2 : option bool) :
  let this := new_CoordinateConverter Math opts in
  let this' := new_CoordinateConverter Math (with_flags flag1 flag2 opts) in
  (forall distance dataIndex datasLength,
      fst (convert Math distance dataIndex datasLength this')
      = fst (convert Math distance dataIndex datasLength this))
  /\ (forall coord, fst (normalize coord this') = fst (normalize coord this))
  /\ (forall calls, fst (run calls this') = fst (run calls this)).
Proof.
  intros this this'. split; [| split].
  - reflexivity.
  - reflexivity.
  - intros calls. apply run_same_clustering. repeat split. now left.
Qed.

(** Calls whose points all lie outside the area leave an empty buffer
    empty and return nothing. *)
Lemma run_outside calls this :
  Forall (fun call => in_area this (fst call) = false) calls ->
  bunchBuffer this = [] ->
  fst (run calls this) = map (fun _ => None) calls
  /\ bunchBuffer (snd (run calls this)) = [].
Proof.
  revert this.
  induction calls as [| [coord dataPlace] calls IH]; intros this Hout Hbuf.
  - split; [reflexivity | exact Hbuf].
  - inversion Hout as [| call calls' Hcoord Hrest]; subst.
    cbn [fst] in Hcoord.
    rewrite run_cons, (bunch_outside this coord dataPlace Hcoord), Hbuf.
    cbn [fst snd nonempty length Nat.ltb Nat.leb map].
    destruct (IH (with_prevCoord coord (with_bunchBuffer [] this)))
      as [-> ->]; [| reflexivity | split; reflexivity].
    apply (Forall_impl _ (P := fun call => in_area this (fst call) = false));
      [| exact Hrest].
    intros call Hcall. rewrite <- Hcall. now apply in_area_options.
Qed.

End ClustererAlongRuns.

(** * Further properties on doubles *)

Module Binary64Edges.

Import Binary64.

Local Open Scope Z_scope.

(** ** Divisors of either sign *)

Section AnySign.

Variable c : positive.
Hypothesis Hc : Z.pos c = 2 ^ 52.

(** Dividing any double by a finite one other than zero. *)
Lemma SFdiv_within_magnitude (x : spec_float) (sy : bool) (my : positive)
  (ey : Z) :
  SpecFloat.valid_binary prec emax x = true ->
  bounded prec emax my ey = true ->
  SFleb (neg_one_at c) (SFdiv prec emax x (S754_finite sy my ey))
  && SFleb (SFdiv prec emax x (S754_finite sy my ey)) (one_at c)
  = SFleb (SFabs x) (S754_finite false my ey).
Proof.
  intros Hx Hy.
  destruct x as [sx | sx | | sx mx ex].
  - destruct sx, sy; reflexivity.
  - destruct sx, sy; reflexivity.
  - reflexivity.
  - cbn [SpecFloat.valid_binary] in Hx. cbn [SFdiv SFabs].
    rewrite SFdiv_core_binary_eq. cbv zeta.
    destruct (binary_round_aux_sign (xorb sx sy)
                (Z.pos mx * 2 ^ (ex - ey
                   - Z.min (fexp64 (Zdigits2 (Z.pos mx) + ex
                                    - (Zdigits2 (Z.pos my) + ey)))
                       (ex - ey)) / Z.pos my)
                (Z.min (fexp64 (Zdigits2 (Z.pos mx) + ex
                                - (Zdigits2 (Z.pos my) + ey))) (ex - ey))
                (new_location (Z.pos my)
                   ((Z.pos mx * 2 ^ (ex - ey
                       - Z.min (fexp64 (Zdigits2 (Z.pos mx) + ex
                                        - (Zdigits2 (Z.pos my) + ey)))
                           (ex - ey))) mod Z.pos my)))
      as [-> Hunsigned].
    rewrite (signed_within_one c _ _ Hunsigned).
    rewrite finite_leb.
    destruct (bounded_canonical mx ex Hx) as [Hcx Hex].
    destruct (bounded_canonical my ey Hy) as [Hcy Hey].
    rewrite fexp64_eq in Hcx, Hcy.
    destruct (Zdigits2_bounds (Z.pos mx)) as [Hdx HX]; [lia |].
    destruct (Zdigits2_bounds (Z.pos my)) as [Hdy HY]; [lia |].
    apply (quotient_vs_one c Hc); try assumption; lia.
Qed.

(** A result of rounding that is not negative and at most 1 is at least
    0. *)
Lemma unsigned_nonneg (f : spec_float) :
  unsigned_result f -> SFleb f (one_at c) = true ->
  SFleb (S754_zero false) f = true.
Proof.
  destruct f as [s | s | | s m e]; cbn [unsigned_result]; intros Hs;
    try subst s; try reflexivity; discriminate.
Qed.

End AnySign.

(** The quotient of two positive finite doubles carries no sign. *)
Lemma SFdiv_positive (mx : positive) (ex : Z) (my : positive) (ey : Z) :
  unsigned_result
    (SFdiv prec emax (S754_finite false mx ex) (S754_finite false my ey)).
Proof.
  cbn [SFdiv xorb].
  destruct (SFdiv_core_binary prec emax (Z.pos mx) ex (Z.pos my) ey)
    as [[mz ez] lz].
  apply binary_round_aux_sign. exact false.
Qed.

Lemma SFcompare_refl (f : spec_float) :
  f <> S754_nan -> SFcompare f f = Some Eq.
Proof.
  destruct f as [s | s | | s m e]; intros Hf.
  - reflexivity.
  - destruct s; reflexivity.
  - now contradiction Hf.
  - unfold SFcompare. rewrite Z.compare_refl, compare_cont_Z, Z.compare_refl.
    destruct s; reflexivity.
Qed.

Lemma SFeqb_refl (f : spec_float) : f <> S754_nan -> SFeqb f f = true.
Proof. intros Hf. unfold SFeqb. now rewrite SFcompare_refl. Qed.

(** ** The shape of a double, from the tests a program can make *)

(** [x !== x] holds of NaN alone. *)
Lemma is_nan_shape (x : float) : is_nan x = true -> Prim2SF x = S754_nan.
Proof.
  unfold is_nan. rewrite eqb_spec.
  destruct (Prim2SF x) as [s | s | | s m e] eqn:Hx; [| | reflexivity |];
    rewrite SFeqb_refl by discriminate; discriminate.
Qed.

Lemma is_zero_shape (x : float) :
  is_zero x = true <-> exists s, Prim2SF x = S754_zero s.
Proof.
  unfold is_zero. change zero with 0%float.
  rewrite eqb_spec, Prim2SF_zero. split.
  - destruct (Prim2SF x) as [s | s | | s m e]; try discriminate.
    + intros _. now exists s.
    + destruct s; discriminate.
    + destruct s; discriminate.
  - intros [s ->]. reflexivity.
Qed.

Lemma is_infinity_shape (h : float) :
  is_infinity h = true -> exists s, Prim2SF h = S754_infinity s.
Proof.
  unfold is_infinity. rewrite eqb_spec, abs_spec, Prim2SF_infinity.
  destruct (Prim2SF h) as [s | s | | s m e]; try discriminate.
  intros _. now exists s.
Qed.

Lemma is_finite_shape (x : float) :
  is_finite x = true ->
  (exists s, Prim2SF x = S754_zero s)
  \/ (exists s m e, Prim2SF x = S754_finite s m e).
Proof.
  unfold is_finite, is_nan, is_infinity.
  rewrite !eqb_spec, abs_spec, Prim2SF_infinity.
  destruct (Prim2SF x) as [s | s | | s m e]; try discriminate.
  - intros _. left. now exists s.
  - destruct s; discriminate.
  - intros _. right. now exists s, m, e.
Qed.

Lemma positive_finite_num_shape (h : float) :
  positive_finite h = true ->
  exists m e, Prim2SF h = S754_finite false m e
              /\ bounded prec emax m e = true.
Proof.
  unfold positive_finite. cbn [lit num_ltb float_Number].
  destruct float_lit_values as (_ & -> & _).
  intros Hh. apply andb_true_iff in Hh as [H0 Hinf].
  now apply positive_finite_shape.
Qed.

Lemma nonzero_finite_shape (h : float) :
  nonzero_finite h = true ->
  exists s m e, Prim2SF h = S754_finite s m e
                /\ bounded prec emax m e = true.
Proof.
  unfold nonzero_finite, positive_finite.
  cbn [lit num_ltb num_abs float_Number].
  destruct float_lit_values as (_ & -> & _).
  rewrite !ltb_spec, abs_spec, Prim2SF_zero, Prim2SF_infinity.
  pose proof (Prim2SF_valid h) as Hvalid.
  destruct (Prim2SF h) as [s | s | | s m e]; try discriminate.
  intros _. now exists s, m, e.
Qed.

Lemma zero_or_NaN_shape (h : float) :
  zero_or_NaN h = true ->
  (exists s, Prim2SF h = S754_zero s) \/ Prim2SF h = S754_nan.
Proof.
  unfold zero_or_NaN. intros Hh. apply orb_true_iff in Hh as [Hz | Hn].
  - left. now apply is_zero_shape.
  - right. now apply is_nan_shape.
Qed.

(** ** Quotients and the interval from -1 to 1 *)

(** For a finite [h] other than zero, of either sign, the quotient [x / h]
    is between -1 and 1 exactly when [|x| <= |h|]. *)
Lemma quotient_within_magnitude (x h : float) :
  nonzero_finite h = true ->
  ((-1 <=? x / h) && (x / h <=? 1))%float = (abs x <=? abs h)%float.
Proof.
  intros Hh.
  destruct (nonzero_finite_shape h Hh) as (sy & my & ey & Hsh & Hy).
  rewrite !leb_spec, div_spec, !abs_spec, Prim2SF_one, Prim2SF_neg_one, Hsh.
  apply (SFdiv_within_magnitude 4503599627370496 eq_refl).
  - apply Prim2SF_valid.
  - exact Hy.
Qed.

(** Dividing by a zero or by NaN never lands between -1 and 1. *)
Lemma quotient_by_zero_or_NaN (x h : float) :
  zero_or_NaN h = true ->
  ((-1 <=? x / h) && (x / h <=? 1))%float = false.
Proof.
  intros Hh.
  rewrite !leb_spec, div_spec, Prim2SF_one, Prim2SF_neg_one.
  destruct (zero_or_NaN_shape h Hh) as [[s ->] | ->];
    destruct (Prim2SF x) as [sx | sx | | sx mx ex];
    try destruct sx; try destruct s; reflexivity.
Qed.

(** Dividing NaN never lands between -1 and 1. *)
Lemma quotient_of_NaN (x h : float) :
  is_nan x = true ->
  ((-1 <=? x / h) && (x / h <=? 1))%float = false.
Proof.
  intros Hx.
  rewrite !leb_spec, div_spec, (is_nan_shape x Hx). reflexivity.
Qed.

(** Dividing by an infinity lands between -1 and 1 exactly for the finite
    doubles. *)
Lemma quotient_by_infinity (x h : float) :
  is_infinity h = true ->
  ((-1 <=? x / h) && (x / h <=? 1))%float = is_finite x.
Proof.
  intros Hh. unfold is_finite, is_nan, is_infinity.
  rewrite !leb_spec, !eqb_spec, div_spec, abs_spec, Prim2SF_one,
    Prim2SF_neg_one, Prim2SF_infinity.
  destruct (is_infinity_shape h Hh) as [s ->].
  destruct (Prim2SF x) as [sx | sx | | sx mx ex].
  - destruct sx, s; reflexivity.
  - destruct sx, s; reflexivity.
  - reflexivity.
  - rewrite SFeqb_refl by discriminate. destruct sx, s; reflexivity.
Qed.

Lemma leb_abs_refl (h : float) :
  nonzero_finite h = true -> (abs h <=? abs h)%float = true.
Proof.
  intros Hh.
  destruct (nonzero_finite_shape h Hh) as (s & m & e & Hsh & _).
  rewrite leb_spec, abs_spec, Hsh. unfold SFleb.
  rewrite SFcompare_refl; [reflexivity | discriminate].
Qed.

Lemma leb_abs_opp (h : float) :
  nonzero_finite h = true -> (abs (- h) <=? abs h)%float = true.
Proof.
  intros Hh. rewrite <- (leb_abs_refl h Hh).
  rewrite !leb_spec, !abs_spec, opp_spec.
  now destruct (Prim2SF h) as [s | s | | s m e].
Qed.

(** ** Positive finite doubles *)

(** They are totally ordered. *)
Lemma positive_finite_total (a b : float) :
  positive_finite a = true -> positive_finite b = true ->
  (a <? b)%float = false -> (b <=? a)%float = true.
Proof.
  intros Ha Hb.
  destruct (positive_finite_num_shape a Ha) as (ma & ea & Hsa & _).
  destruct (positive_finite_num_shape b Hb) as (mb & eb & Hsb & _).
  rewrite ltb_spec, leb_spec, Hsa, Hsb.
  unfold SFltb, SFleb, SFcompare.
  rewrite !compare_cont_Z, (Z.compare_antisym ea eb).
  destruct (ea ?= eb); cbn [CompOpp]; try reflexivity; try discriminate.
  rewrite (Z.compare_antisym (Z.pos ma) (Z.pos mb)).
  destruct (Z.pos ma ?= Z.pos mb); cbn [CompOpp];
    try reflexivity; discriminate.
Qed.

Lemma ltb_leb (a b : float) : (a <? b)%float = true -> (a <=? b)%float = true.
Proof.
  rewrite ltb_spec, leb_spec. unfold SFltb, SFleb.
  destruct (SFcompare (Prim2SF a) (Prim2SF b)) as [[| |] |];
    try reflexivity; discriminate.
Qed.

(** A positive finite double over one at least as large is between 0 and
    1. *)
Lemma quotient_in_unit (x h : float) :
  positive_finite x = true -> positive_finite h = true ->
  (x <=? h)%float = true ->
  ((0 <=? x / h) && (x / h <=? 1))%float = true.
Proof.
  intros Hx Hh Hle.
  destruct (positive_finite_num_shape x Hx) as (mx & ex & Hsx & _).
  destruct (positive_finite_num_shape h Hh) as (mh & eh & Hsh & _).
  assert (Hh' : ((0 <? h) && (h <? infinity))%float = true).
  { revert Hh. unfold positive_finite. cbn [lit num_ltb float_Number].
    now destruct float_lit_values as (_ & -> & _). }
  apply andb_true_iff in Hh' as [H0 Hinf].
  pose proof (quotient_within_one x h H0 Hinf) as Hq.
  assert (Habs : (abs x <=? h)%float = true).
  { rewrite leb_spec, abs_spec, Hsx. cbn [SFabs].
    now rewrite leb_spec, Hsx in Hle. }
  rewrite Habs in Hq. apply andb_true_iff in Hq as [_ Hq1].
  rewrite Hq1, andb_true_r.
  rewrite leb_spec, div_spec, Prim2SF_one, Hsx, Hsh in Hq1.
  rewrite leb_spec, div_spec, Prim2SF_zero, Hsx, Hsh.
  apply (unsigned_nonneg 4503599627370496); [apply SFdiv_positive | exact Hq1].
Qed.

(** ** Products and sums with a zero *)

Lemma mul_zero_l (a b : float) :
  is_zero a = true -> is_finite b = true -> is_zero (a * b) = true.
Proof.
  intros Ha Hb. apply is_zero_shape in Ha as [sa Ha].
  apply is_zero_shape. rewrite mul_spec, Ha.
  destruct (is_finite_shape b Hb) as [[sb ->] | (sb & mb & eb & ->)];
    eexists; reflexivity.
Qed.

Lemma mul_zero_r (a b : float) :
  is_finite a = true -> is_zero b = true -> is_zero (a * b) = true.
Proof.
  intros Ha Hb. apply is_zero_shape in Hb as [sb Hb].
  apply is_zero_shape. rewrite mul_spec, Hb.
  destruct (is_finite_shape a Ha) as [[sa ->] | (sa & ma & ea & ->)];
    eexists; reflexivity.
Qed.

Lemma add_zero_zero (a b : float) :
  is_zero a = true -> is_zero b = true -> is_zero (a + b) = true.
Proof.
  intros Ha Hb. apply is_zero_shape in Ha as [sa Ha].
  apply is_zero_shape in Hb as [sb Hb].
  apply is_zero_shape. rewrite add_spec, Ha, Hb.
  destruct sa, sb; eexists; reflexivity.
Qed.

(** Adding a zero gives a number equal to the other operand. *)
Lemma add_zero_r (a b : float) :
  is_nan a = false -> is_zero b = true -> (a + b =? a)%float = true.
Proof.
  unfold is_nan. intros Ha Hb. apply negb_false_iff in Ha.
  apply is_zero_shape in Hb as [sb Hb].
  rewrite eqb_spec in *. rewrite add_spec, Hb.
  destruct (Prim2SF a) as [s | s | | s m e]; try discriminate Ha.
  - destruct s, sb; reflexivity.
  - exact Ha.
  - exact Ha.
Qed.

(** A zero distance in millimetres is a zero distance in metres. *)
Lemma div_zero_1000 (d : float) :
  is_zero d = true -> is_zero (d / lit 1000)%num = true.
Proof.
  intros Hd. apply is_zero_shape in Hd as [s Hd].
  apply is_zero_shape. cbn [num_div float_Number]. rewrite div_spec, Hd.
  replace (Prim2SF (lit 1000)) with (S754_finite false 8796093022208000 (-43))
    by (vm_compute; reflexivity).
  eexists. reflexivity.
Qed.

(** ** NaN *)

Lemma is_nan_intro (x : float) : Prim2SF x = S754_nan -> is_nan x = true.
Proof. intros Hx. unfold is_nan. now rewrite eqb_spec, Hx. Qed.

(** NaN is below nothing, and nothing is below NaN. *)
Lemma ltb_NaN (a b : float) :
  is_nan a || is_nan b = true -> (a <? b)%float = false.
Proof.
  intros Hn. rewrite ltb_spec.
  apply orb_true_iff in Hn as [Ha | Hb].
  - now rewrite (is_nan_shape a Ha).
  - rewrite (is_nan_shape b Hb). now destruct (Prim2SF a).
Qed.

(** A quotient with a NaN operand is NaN. *)
Lemma div_NaN (a b : float) :
  is_nan a || is_nan b = true -> is_nan (a / b) = true.
Proof.
  intros Hn. apply is_nan_intro. rewrite div_spec.
  apply orb_true_iff in Hn as [Ha | Hb].
  - now rewrite (is_nan_shape a Ha).
  - rewrite (is_nan_shape b Hb). now destruct (Prim2SF a).
Qed.

End Binary64Edges.

(** ** The projection area on doubles *)

Section AreaOnDoubles.

Implicit Types (this : CoordinateConverter float) (p : XY float).

Local Open Scope num_scope.

(** On doubles the containment test is one test per axis. *)
Lemma in_area_axes this p :
  let size := projectionAreaSize (options this) in
  let hw := fst size / lit 2 in
  let hh := snd size / lit 2 in
  in_area this p
  = (((-1 <=? fst p / hw) && (fst p / hw <=? 1))
     && ((-1 <=? snd p / hh) && (snd p / hh <=? 1)))%float.
Proof.
  intros size hw hh. unfold in_area.
  cbv beta iota zeta delta [bind normalize inProjectionArea field ret].
  fold size. cbn [fst snd]. fold hw hh.
  cbn [num_leb num_div float_Number].
  change (@lit float float_Number) with float_lit.
  destruct float_lit_values as (-> & _ & -> & _).
  now rewrite <- !andb_assoc.
Qed.

(** X10.  On doubles, whenever both half-extents are finite and not zero,
    of either sign, a point is in the area exactly when the magnitude of
    each coordinate is at most the magnitude of the half-extent: a negative
    size behaves as its absolute value. *)
Theorem in_area_compares_magnitudes this p :
  let size := projectionAreaSize (options this) in
  nonzero_finite (fst size / lit 2)%num = true ->
  nonzero_finite (snd size / lit 2)%num = true ->
  in_area this p
  = (num_abs (fst p) <=? num_abs (fst size / lit 2))
    && (num_abs (snd p) <=? num_abs (snd size / lit 2)).
Proof.
  intros size Hw Hh. rewrite in_area_axes. cbv zeta. fold size.
  rewrite (Binary64Edges.quotient_within_magnitude (fst p) _ Hw).
  rewrite (Binary64Edges.quotient_within_magnitude (snd p) _ Hh).
  reflexivity.
Qed.

(** X11.  On doubles the boundary belongs to the area: with half-extents
    that are finite and not zero, the four corners are inside. *)
Theorem area_boundary_is_inside this :
  let size := projectionAreaSize (options this) in
  let hw := fst size / lit 2 in
  let hh := snd size / lit 2 in
  nonzero_finite hw = true -> nonzero_finite hh = true ->
  in_area this (hw, hh) = true /\ in_area this (- hw, hh) = true
  /\ in_area this (hw, - hh) = true /\ in_area this (- hw, - hh) = true.
Proof.
  intros size hw hh Hw Hh.
  rewrite !in_area_axes. cbv zeta. fold size. fold hw hh. cbn [fst snd].
  rewrite !(Binary64Edges.quotient_within_magnitude _ hw Hw).
  rewrite !(Binary64Edges.quotient_within_magnitude _ hh Hh).
  cbn [num_neg float_Number].
  rewrite (Binary64Edges.leb_abs_refl hw Hw), (Binary64Edges.leb_abs_refl hh Hh).
  rewrite (Binary64Edges.leb_abs_opp hw Hw), (Binary64Edges.leb_abs_opp hh Hh).
  repeat split.
Qed.

Lemma in_area_degenerate this p :
  let size := projectionAreaSize (options this) in
  zero_or_NaN (fst size / lit 2)%num || zero_or_NaN (snd size / lit 2)%num
  = true ->
  in_area this p = false.
Proof.
  intros size Hdeg. rewrite in_area_axes. cbv zeta. fold size.
  apply orb_true_iff in Hdeg as [Hw | Hh].
  - now rewrite (Binary64Edges.quotient_by_zero_or_NaN (fst p) _ Hw).
  - rewrite (Binary64Edges.quotient_by_zero_or_NaN (snd p) _ Hh).
    apply andb_false_r.
Qed.

(** X12.  On doubles, a half-extent that is zero or NaN (a size of 0, or
    one so small that its half rounds to 0) empties the area: no point is
    inside, and a fresh object returns none at every call of every
    sequence. *)
Theorem degenerate_area_disables_clustering (Math : MathObject float)
  (opts : CoordinateConverterOptions float) calls :
  let size := projectionAreaSize opts in
  let this := new_CoordinateConverter Math opts in
  zero_or_NaN (fst size / lit 2)%num || zero_or_NaN (snd size / lit 2)%num
  = true ->
  (forall p, in_area this p = false)
  /\ fst (run calls this) = map (fun _ => None) calls.
Proof.
  intros size this Hdeg.
  assert (Hout : forall p, in_area this p = false).
  { intros p. now apply in_area_degenerate. }
  split; [exact Hout |].
  apply run_outside; [| reflexivity].
  apply Forall_forall. intros call _. apply Hout.
Qed.

(** X13.  On doubles, a point with a NaN coordinate is outside every area:
    [bunch] never buffers it, whatever its place in the sweep. *)
Theorem NaN_point_is_outside this p dataPlace :
  is_nan (fst p) || is_nan (snd p) = true ->
  in_area this p = false
  /\ bunchBuffer (snd (bunch p dataPlace this)) = [].
Proof.
  intros Hnan.
  assert (Hout : in_area this p = false).
  { rewrite in_area_axes. cbv zeta.
    apply orb_true_iff in Hnan as [Hx | Hy].
    - now rewrite (Binary64Edges.quotient_of_NaN (fst p) _ Hx).
    - rewrite (Binary64Edges.quotient_of_NaN (snd p) _ Hy).
      apply andb_false_r. }
  split; [exact Hout |].
  now rewrite (bunch_outside this p dataPlace Hout).
Qed.

(** X14.  On doubles, an area with infinite half-extents holds exactly the
    points with two finite coordinates. *)
Theorem infinite_area_holds_the_finite_points this p :
  let size := projectionAreaSize (options this) in
  is_infinity (fst size / lit 2)%num = true ->
  is_infinity (snd size / lit 2)%num = true ->
  in_area this p = is_finite (fst p) && is_finite (snd p).
Proof.
  intros size Hw Hh. rewrite in_area_axes. cbv zeta. fold size.
  rewrite (Binary64Edges.quotient_by_infinity (fst p) _ Hw).
  rewrite (Binary64Edges.quotient_by_infinity (snd p) _ Hh).
  reflexivity.
Qed.

End AreaOnDoubles.

(** ** [convert] *)

Section ConvertOnDoubles.

Implicit Types (this : CoordinateConverter float).

Local Open Scope num_scope.

(** X15.  On doubles, a zero distance is converted to the position of the
    sensor, [sensorCoordinateFromCenter], provided the sine and cosine of
    the sample angle and the entries of the rotation matrix are finite and
    the position is not NaN. *)
Theorem convert_of_zero_distance (Math : MathObject float) this
  (distance dataIndex datasLength : float) :
  let angle := dataIndex / (datasLength - lit 1) * sensorFov this in
  let offset := sensorCoordinateFromCenter (options this) in
  let globalCoord :=
    fst (convert Math distance dataIndex datasLength this) in
  is_zero distance = true ->
  is_finite (Math_cos Math angle) = true ->
  is_finite (Math_sin Math angle) = true ->
  finite_matrix (sensorAxisRotationMatrix this) = true ->
  is_nan (fst offset) = false -> is_nan (snd offset) = false ->
  (fst globalCoord =? fst offset)%float = true
  /\ (snd globalCoord =? snd offset)%float = true.
Proof.
  intros angle offset globalCoord Hd Hcos Hsin Hmat Hox Hoy.
  unfold finite_matrix in Hmat. rewrite !andb_true_iff in Hmat.
  destruct Hmat as (((H11 & H12) & H21) & H22).
  pose proof (Binary64Edges.div_zero_1000 distance Hd) as Hmeter.
  subst globalCoord.
  cbv beta iota zeta delta [convert bind field ret].
  cbn [fst snd]. fold angle offset.
  pose proof (Binary64Edges.mul_zero_l _ _ Hmeter Hcos) as Hx.
  pose proof (Binary64Edges.mul_zero_l _ _ Hmeter Hsin) as Hy.
  split; apply Binary64Edges.add_zero_r; try assumption;
    apply Binary64Edges.add_zero_zero;
    apply Binary64Edges.mul_zero_r; assumption.
Qed.

End ConvertOnDoubles.

(** ** [coveredScale] *)

Section ThreeOnDoubles.

Local Open Scope num_scope.

(** X17.  On doubles, for a positive finite screen aspect and image aspect,
    both components of the covered scale are between 0 and 1. *)
Theorem coveredScale_is_within_unit (domElement : Three.DomElement float)
  (imageAspect : float) :
  let scale := Three.coveredScale domElement imageAspect in
  positive_finite (Three.aspect (Three.size domElement)) = true ->
  positive_finite imageAspect = true ->
  ((lit 0 <=? fst scale) && (fst scale <=? lit 1)) = true
  /\ ((lit 0 <=? snd scale) && (snd scale <=? lit 1)) = true.
Proof.
  intros scale Hs Hi. subst scale. unfold Three.coveredScale.
  set (screenAspect := Three.aspect (Three.size domElement)) in *.
  cbn [lit num_ltb num_leb num_div float_Number].
  destruct float_lit_values as (_ & -> & -> & _).
  destruct (screenAspect <? imageAspect)%float eqn:Hlt; cbn [fst snd].
  - split; [| reflexivity].
    apply Binary64Edges.quotient_in_unit; try assumption.
    now apply Binary64Edges.ltb_leb.
  - split; [reflexivity |].
    apply Binary64Edges.quotient_in_unit; try assumption.
    now apply Binary64Edges.positive_finite_total.
Qed.

(** X19.  On doubles, a NaN aspect (a canvas of width and height 0, or a NaN
    image aspect) is not rejected: the covered scale is 1 on the first axis
    and NaN on the second. *)
Theorem coveredScale_of_NaN (domElement : Three.DomElement float)
  (imageAspect : float) :
  let scale := Three.coveredScale domElement imageAspect in
  is_nan (Three.aspect (Three.size domElement)) || is_nan imageAspect = true ->
  fst scale = lit 1 /\ is_nan (snd scale) = true.
Proof.
  intros scale Hn. subst scale. unfold Three.coveredScale.
  set (screenAspect := Three.aspect (Three.size domElement)) in *.
  cbn [num_ltb num_div float_Number].
  rewrite (Binary64Edges.ltb_NaN _ _ Hn). cbn [fst snd].
  split; [reflexivity |].
  apply Binary64Edges.div_NaN. now rewrite orb_comm.
Qed.

End ThreeOnDoubles.

Section ThreeExact.

Local Open Scope Q_scope.

(** X18.  In exact arithmetic, for a positive screen aspect and image
    aspect, the two components of the covered scale are in the ratio of the
    screen aspect to the image aspect, and both are positive and at most
    1. *)
Theorem coveredScale_keeps_the_aspect_ratio (domElement : Three.DomElement Q)
  (imageAspect : Q) :
  let screenAspect := Three.aspect (Three.size domElement) in
  let scale := Three.coveredScale domElement imageAspect in
  0 < screenAspect -> 0 < imageAspect ->
  fst scale / snd scale == screenAspect / imageAspect
  /\ 0 < fst scale <= 1 /\ 0 < snd scale <= 1.
Proof.
  intros screenAspect scale Hs Hi. subst scale. unfold Three.coveredScale.
  fold screenAspect. cbn [lit num_ltb num_div Q_Number].
  destruct (Qltb screenAspect imageAspect) eqn:Hlt; cbn [fst snd].
  - apply Qltb_true_iff in Hlt.
    split; [| split; [split |]].
    + change (inject_Z 1) with 1. field. intros H0. rewrite H0 in Hi.
      now apply Qlt_irrefl in Hi.
    + apply Qlt_shift_div_l; [exact Hi | now rewrite Qmult_0_l].
    + apply Qle_shift_div_r; [exact Hi |]. rewrite Qmult_1_l.
      now apply Qlt_le_weak.
    + split; [reflexivity | apply Qle_refl].
  - assert (Hle : imageAspect <= screenAspect).
    { apply Qnot_lt_le. intros Hc. apply Qltb_true_iff in Hc. congruence. }
    split; [| split; [| split]].
    + change (inject_Z 1) with 1. field. split; intros H0.
      * rewrite H0 in Hi. now apply Qlt_irrefl in Hi.
      * rewrite H0 in Hs. now apply Qlt_irrefl in Hs.
    + split; [reflexivity | apply Qle_refl].
    + apply Qlt_shift_div_l; [exact Hs | now rewrite Qmult_0_l].
    + apply Qle_shift_div_r; [exact Hs |]. now rewrite Qmult_1_l.
Qed.

End ThreeExact.

(** * Concrete runs of the further properties *)

(** A sweep of three near-identical points at the origin and a last point
    elsewhere. *)
Lemma sweep_witness :
  let out := run (sweep (0, 0) [(0.03125, 0); (0, 0)] (0.5, 0.5))%float
               fresh_2x2 in
  fst out
  = None :: map (fun _ => None) [(0.03125, 0); (0, 0)]%float
      ++ [flush_rule (bunchPrecisionCount fresh_2x2)
            [(0, 0); (0.03125, 0); (0, 0)]%float]
  /\ bunchBuffer (snd out) = [].
Proof.
  apply (sweep_emits_at_its_last_call fresh_2x2);
    vm_compute; reflexivity.
Defined.

(** Three points at the origin, then three half a metre to the right. *)
Lemma sweep_gap_witness :
  fst (run (sweep_with_gap (0, 0) [(0, 0); (0, 0)] (0.5, 0)
              [(0.5, 0); (0.5, 0)] (0, 0))%float fresh_2x2)
  = None :: map (fun _ => None) [(0, 0); (0, 0)]%float
      ++ flush_rule (bunchPrecisionCount fresh_2x2)
           [(0, 0); (0, 0); (0, 0)]%float
      :: map (fun _ => None) [(0.5, 0); (0.5, 0)]%float
      ++ [flush_rule (bunchPrecisionCount fresh_2x2)
            [(0.5, 0); (0.5, 0); (0.5, 0)]%float].
Proof.
  apply (sweep_splits_at_a_gap fresh_2x2);
    vm_compute; reflexivity.
Defined.

(** The end of a sweep followed by a point five metres away. *)
Lemma reported_once_witness :
  fst (bunch (5, 5)%float Middle
         (snd (bunch (0, 0)%float Last three_at_origin)))
  = None.
Proof.
  apply (cluster_is_reported_once three_at_origin);
    vm_compute; reflexivity.
Defined.

(** The end of a sweep of three samples at the origin, with the default
    [bunchPrecisionCount] of 3. *)
Lemma centroid_needs_precision_witness :
  (bunchPrecisionCount three_at_origin
   <=? length_num (bunchBuffer three_at_origin))%num = true
  /\ bunchBuffer three_at_origin <> []
  /\ (0, 0)%float = centroid (bunchBuffer three_at_origin).
Proof.
  apply (centroid_needs_precision three_at_origin (0, 0)%float Last).
  vm_compute. reflexivity.
Defined.

Lemma prevCoord_unread_witness :
  fst (run edge_sweep (with_prevCoord (1, 1)%float fresh_02))
  = fst (run edge_sweep fresh_02).
Proof.
  apply (prevCoord_is_unread_while_buffer_is_empty fresh_02).
  reflexivity.
Defined.

(** The same sweep seen by a sensor mounted bottom-left at the centre and by
    one mounted top-right elsewhere, with another sine and cosine. *)
Lemma ignores_the_sensor_witness :
  fst (run edge_sweep
         (new_CoordinateConverter (Math_small_angle 3%float)
            options_top_right))
  = fst (run edge_sweep fresh_02).
Proof.
  apply (clustering_ignores_the_sensor Math64 (Math_small_angle 3%float)
           (options_with (d0_2, d0_2) None) options_top_right);
    reflexivity.
Defined.

(** An area of width -2. *)
Lemma negative_size_witness :
  in_area fresh_negative (0.5, -1)%float
  = ((num_abs 0.5%float
      <=? num_abs (fst (projectionAreaSize (options fresh_negative)) / lit 2))
     && (num_abs (-1)%float
         <=? num_abs (snd (projectionAreaSize (options fresh_negative))
                      / lit 2)))%num.
Proof.
  apply (in_area_compares_magnitudes fresh_negative (0.5, -1)%float);
    vm_compute; reflexivity.
Defined.

Lemma boundary_witness :
  in_area fresh_02 (d0_2 / 2, d0_2 / 2)%float = true
  /\ in_area fresh_02 (- (d0_2 / 2), d0_2 / 2)%float = true
  /\ in_area fresh_02 (d0_2 / 2, - (d0_2 / 2))%float = true
  /\ in_area fresh_02 (- (d0_2 / 2), - (d0_2 / 2))%float = true.
Proof.
  apply (area_boundary_is_inside fresh_02); vm_compute; reflexivity.
Defined.

(** An area of width 0. *)
Lemma zero_width_witness :
  (forall p, in_area fresh_zero p = false)
  /\ fst (run edge_sweep fresh_zero) = map (fun _ => None) edge_sweep.
Proof.
  apply (degenerate_area_disables_clustering Math64
           (options_with (0%float, 2%float) None) edge_sweep).
  vm_compute. reflexivity.
Defined.

Lemma NaN_point_witness :
  in_area three_at_origin (nan, 0%float) = false
  /\ bunchBuffer (snd (bunch (nan, 0%float) Middle three_at_origin)) = [].
Proof.
  apply (NaN_point_is_outside three_at_origin (nan, 0%float) Middle).
  vm_compute. reflexivity.
Defined.

Lemma unbounded_area_witness :
  in_area fresh_unbounded (1, 2)%float
  = is_finite 1%float && is_finite 2%float.
Proof.
  apply (infinite_area_holds_the_finite_points fresh_unbounded (1, 2)%float);
    vm_compute; reflexivity.
Defined.

(** The middle sample of three, at distance 0, seen from the top-right
    sensor. *)
Lemma zero_distance_witness :
  (fst (fst (convert Math64 0%float 1%float 3%float fresh_top_right))
   =? 1)%float = true
  /\ (snd (fst (convert Math64 0%float 1%float 3%float fresh_top_right))
      =? 2)%float = true.
Proof.
  apply (convert_of_zero_distance Math64 fresh_top_right
           0%float 1%float 3%float);
    vm_compute; reflexivity.
Defined.

(** A 3:2 image on a full-HD canvas. *)
Lemma coveredScale_witness :
  ((lit 0 <=? fst (Three.coveredScale canvas_1920x1080 1.5%float))
   && (fst (Three.coveredScale canvas_1920x1080 1.5%float) <=? lit 1))%num
  = true
  /\ ((lit 0 <=? snd (Three.coveredScale canvas_1920x1080 1.5%float))
      && (snd (Three.coveredScale canvas_1920x1080 1.5%float) <=? lit 1))%num
     = true.
Proof.
  apply (coveredScale_is_within_unit canvas_1920x1080 1.5%float);
    vm_compute; reflexivity.
Defined.

Lemma coveredScale_ratio_witness :
  (fst (Three.coveredScale canvas_1920x1080_Q (3 # 2))
   / snd (Three.coveredScale canvas_1920x1080_Q (3 # 2))
   == Three.aspect (Three.size canvas_1920x1080_Q) / (3 # 2)
   /\ 0 < fst (Three.coveredScale canvas_1920x1080_Q (3 # 2)) <= 1
   /\ 0 < snd (Three.coveredScale canvas_1920x1080_Q (3 # 2)) <= 1)%Q.
Proof.
  apply (coveredScale_keeps_the_aspect_ratio canvas_1920x1080_Q (3 # 2)%Q);
    vm_compute; reflexivity.
Defined.

Lemma coveredScale_NaN_witness :
  fst (Three.coveredScale canvas_0x0 1.5%float) = lit 1
  /\ is_nan (snd (Three.coveredScale canvas_0x0 1.5%float)) = true.
Proof.
  apply (coveredScale_of_NaN canvas_0x0 1.5%float).
  vm_compute. reflexivity.
Defined.

(** * [convert] on real numbers

    The arithmetic that the doubles of the program approximate: real
    numbers, with the real pi, sine and cosine.  Division by zero is 0 on
    real numbers, where the program's division yields NaN or an infinity; the
    divisors of [convert] are the constants 1000, 180 and 2 and
    [datasLength - 1], which the statement below keeps away from zero. *)

From Stdlib Require Import Reals.

Definition Rltb (a b : R) : bool := if Rlt_dec a b then true else false.

Definition Rleb (a b : R) : bool := if Rle_dec a b then true else false.

Lemma Rltb_asym (a b : R) : Rltb a b = true -> Rltb b a = false.
Proof.
  unfold Rltb. destruct (Rlt_dec a b) as [Hab |]; [| discriminate].
  intros _. destruct (Rlt_dec b a) as [Hba |]; [| reflexivity].
  exfalso. exact (Rlt_asym a b Hab Hba).
Qed.

#[export] Instance R_Number : Number R := {|
  lit := IZR;
  num_add := Rplus;
  num_sub := Rminus;
  num_mul := Rmult;
  num_div := Rdiv;
  num_neg := Ropp;
  num_abs := Rabs;
  num_ltb := Rltb;
  num_leb := Rleb;
  num_ltb_asym := Rltb_asym
|}.

(** [Math] on real numbers. *)
Definition MathR : MathObject R :=
  {| Math_PI := PI; Math_sin := sin; Math_cos := cos |}.

(** A sensor mounted top-right, one metre right of and two metres above the
    centre of a 2 m by 2 m area. *)
Definition options_R : CoordinateConverterOptions R :=
  {| sensorPlacement := top_right;
     sensorCoordinateFromCenter := (1, 2)%R;
     projectionAreaSize := (2, 2)%R;
     opt_normalize := None;
     opt_bunch := None;
     opt_bunchEps := None;
     opt_bunchPrecisionCount := None |}.

Section ConvertOnReals.

Local Open Scope R_scope.

Lemma cos_sin_squares (x : R) : cos x * cos x + sin x * sin x = 1.
Proof.
  pose proof (sin2_cos2 x) as Hx. unfold Rsqr in Hx.
  rewrite Rplus_comm. exact Hx.
Qed.

(** Whatever the placement, the matrix is a rotation. *)
Lemma rotation_matrix_R (placement : SensorPlacement) :
  let mat := calcSensorAxisRotationMatrix MathR placement in
  a11 mat * a11 mat + a21 mat * a21 mat = 1
  /\ a12 mat = - a21 mat /\ a22 mat = a11 mat.
Proof.
  cbv zeta. unfold calcSensorAxisRotationMatrix. cbn [a11 a12 a21 a22].
  split; [apply cos_sin_squares | split; reflexivity].
Qed.

(** X16.  In real arithmetic, for every placement and every sample of a
    sweep of more than one sample ([datasLength - 1] is not zero), the point
    returned by [convert] lies at the measured distance, in metres, from
    the position of the sensor: the squared distance between the two is
    [(distance / 1000)^2]. *)
Theorem convert_keeps_the_distance (opts : CoordinateConverterOptions R)
  (distance dataIndex datasLength : R) :
  let this := new_CoordinateConverter MathR opts in
  let offset := sensorCoordinateFromCenter opts in
  let globalCoord :=
    fst (convert MathR distance dataIndex datasLength this) in
  datasLength - 1 <> 0 ->
  (fst globalCoord - fst offset) * (fst globalCoord - fst offset)
  + (snd globalCoord - snd offset) * (snd globalCoord - snd offset)
  = (distance / 1000) * (distance / 1000).
Proof.
  intros this offset globalCoord _.
  subst globalCoord.
  cbv beta iota zeta delta [convert bind field ret].
  cbn [fst snd].
  change (options this) with opts. fold offset.
  change (sensorAxisRotationMatrix this)
    with (calcSensorAxisRotationMatrix MathR (sensorPlacement opts)).
  destruct (rotation_matrix_R (sensorPlacement opts)) as (Hmat & -> & ->).
  set (mat := calcSensorAxisRotationMatrix MathR (sensorPlacement opts)) in *.
  cbn [lit num_add num_sub num_mul num_div num_neg R_Number Math_cos Math_sin
       MathR].
  set (angle := dataIndex / (datasLength - 1) * sensorFov this).
  pose proof (cos_sin_squares angle) as Hangle.
  set (c := cos angle) in *. set (s := sin angle) in *.
  set (m := distance / 1000).
  transitivity ((a11 mat * a11 mat + a21 mat * a21 mat)
                * (m * m * (c * c + s * s))); [ring |].
  rewrite Hmat, Hangle. ring.
Qed.

End ConvertOnReals.

(** One metre, at the middle sample of three, seen from the top-right
    sensor. *)
Lemma distance_witness :
  (3 - 1 <> 0
   /\ let globalCoord :=
        fst (convert MathR 1000 1 3
               (new_CoordinateConverter MathR options_R)) in
      (fst globalCoord - 1) * (fst globalCoord - 1)
      + (snd globalCoord - 2) * (snd globalCoord - 2)
      = (1000 / 1000) * (1000 / 1000))%R.
Proof.
  assert (Hlength : (3 - 1 <> 0)%R).
  { apply Rminus_eq_contra, eq_IZR_contrapositive. lia. }
  split; [exact Hlength |].
  exact (convert_keeps_the_distance options_R 1000%R 1%R 3%R Hlength).
Defined.
